(** * Termset-based retrieval: vectorizer, scorer and evaluator

    A shallow embedding of [infre/retrieval.py] and of the vectorizing and
    ranking methods of [infre/models/bmodel.py].

    Conventions of the embedding:
    - Python [int]s are [Z]; a [dict] whose enumeration order is observable
      (the termset occurrence map, the similarity dictionary, the per-row
      [temp] dictionary) is an association list in insertion order; a [dict]
      used only for lookups (the inverted index, the per-term weights) is a
      [gmap]; a Python [set] of document ids is a [gset Z].
    - Python exceptions are an explicit error type and every function that
      can raise returns a [result].
    - Floating-point numbers are abstracted to exact numbers: the evaluator,
      which only divides integers and sums, computes in [Q]; the vectorizer
      and the scorer, which need [log2] and [sqrt], compute in [R].  IEEE
      rounding, overflow and NaN are outside that model.
    - Where the behaviour depends on IEEE arithmetic (the two rounding
      functions, the norm of a tiny vector, the rounding of the evaluation
      scores) the same code is given on binary64 numbers in the module
      [Double]. *)

From Stdlib Require Import QArith Reals Lra Lia Sorting.Sorted.
From Stdlib Require Lqa Floats.
From stdpp Require Import gmap strings list sorting.

(** ** Python exceptions and the error monad *)

Inductive exn : Type :=
  | ZeroDivisionError
  | KeyError
  | IndexError
  | ValueError.

Inductive result (A : Type) : Type :=
  | Ok (a : A)
  | Raise (e : exn).
Arguments Ok {A} a.
Arguments Raise {A} e.

#[global] Instance result_ret : MRet result := fun A a => Ok a.
#[global] Instance result_bind : MBind result := fun A B f m =>
  match m with
  | Ok a => f a
  | Raise e => Raise e
  end.

(** ** Evaluator: [calc_precision_recall] of [infre/retrieval.py] *)

(** [len(x)] as a Python int. *)
Definition len {A} (l : list A) : Z := Z.of_nat (length l).
Definition set_len (s : gset Z) : Z := Z.of_nat (size s).

(** [a / b] on numbers: true division, raising on a zero divisor. *)
Definition truediv (a b : Q) : result Q :=
  if Qeq_bool b 0 then Raise ZeroDivisionError else Ok (a / b)%Q.

(** [sum(l)]: left-to-right accumulation starting from [0]. *)
Definition py_sum (l : list Q) : Q := fold_left Qplus l 0%Q.

(** The local variables of [calc_precision_recall]. *)
Record pr_state : Type := PrState {
  cnt : Z;
  retrieved : Z;
  recall : list Q;
  precision : list Q
}.

Definition pr_init : pr_state :=
  {| cnt := 0; retrieved := 1; recall := []; precision := [] |}.

(** One iteration of [for doc in sim_docs]. *)
Definition pr_step (relevant : gset Z) (st : pr_state) (doc : Z) : result pr_state :=
  if decide (doc ∈ relevant) then
    let cnt' := (cnt st + 1)%Z in
    p ← truediv (inject_Z cnt') (inject_Z (retrieved st));
    r ← truediv (inject_Z cnt') (inject_Z (set_len relevant));
    Ok {| cnt := cnt';
          retrieved := (retrieved st + 1)%Z;
          recall := recall st ++ [r];
          precision := precision st ++ [p] |}
  else
    Ok {| cnt := cnt st;
          retrieved := (retrieved st + 1)%Z;
          recall := recall st;
          precision := precision st |}.

Fixpoint pr_loop (relevant : gset Z) (sim_docs : list Z) (st : pr_state)
  : result pr_state :=
  match sim_docs with
  | [] => Ok st
  | doc :: rest => st' ← pr_step relevant st doc; pr_loop relevant rest st'
  end.

Definition calc_precision_recall (sim_docs : list Z) (relevant : gset Z)
  : result (Q * Q) :=
  st ← pr_loop relevant sim_docs pr_init;
  avg_pre ← truediv (py_sum (precision st)) (inject_Z (len (precision st)));
  avg_rec ← truediv (py_sum (recall st)) (inject_Z (len (recall st)));
  Ok (avg_pre, avg_rec).

(** *** The evaluator as the specification words it *)

(** Running count of relevant documents among the first [k] ranked ones. *)
Definition hits (ranked : list Z) (relevant : gset Z) (k : nat) : nat :=
  length (filter (λ d, d ∈ relevant) (take k ranked)).

(** The document at 1-based rank [k] is relevant. *)
Definition relevant_at (ranked : list Z) (relevant : gset Z) (k : nat) : Prop :=
  match ranked !! pred k with
  | Some d => d ∈ relevant
  | None => False
  end.

#[global] Instance relevant_at_dec ranked relevant k :
  Decision (relevant_at ranked relevant k).
Proof. unfold relevant_at. destruct (ranked !! pred k); apply _. Defined.

(** The 1-based ranks whose document is relevant, in rank order. *)
Definition hit_positions (ranked : list Z) (relevant : gset Z) : list nat :=
  filter (relevant_at ranked relevant) (seq 1 (length ranked)).

Definition precision_at (ranked : list Z) (relevant : gset Z) (k : nat) : Q :=
  (inject_Z (Z.of_nat (hits ranked relevant k)) / inject_Z (Z.of_nat k))%Q.

Definition recall_at (ranked : list Z) (relevant : gset Z) (k : nat) : Q :=
  (inject_Z (Z.of_nat (hits ranked relevant k)) / inject_Z (set_len relevant))%Q.

Definition recorded_precisions (ranked : list Z) (relevant : gset Z) : list Q :=
  precision_at ranked relevant <$> hit_positions ranked relevant.

Definition recorded_recalls (ranked : list Z) (relevant : gset Z) : list Q :=
  recall_at ranked relevant <$> hit_positions ranked relevant.

Definition average (l : list Q) : Q := (py_sum l / inject_Z (len l))%Q.



(** ** Numeric primitives on reals *)

#[global] Instance R_eq_dec : EqDecision R := Req_dec_T.

(** [a / b] on two Python ints. *)
Definition int_truediv (a b : Z) : result R :=
  if decide (b = 0%Z) then Raise ZeroDivisionError else Ok (IZR a / IZR b)%R.

(** The base-2 logarithm, and [math.log2], which rejects non-positive
    arguments. *)
Definition log2 (x : R) : R := (ln x / ln 2)%R.

Definition py_log2 (x : R) : result R :=
  if Rle_dec x 0 then Raise ValueError else Ok (log2 x).

(** Round to the nearest integer, ties to the even one ([numpy.rint]). *)
Definition rint (x : R) : Z :=
  let f := Int_part x in
  let frac := (x - IZR f)%R in
  if Rlt_dec frac (1 / 2) then f
  else if Rlt_dec (1 / 2) frac then (f + 1)%Z
  else if Z.even f then f else (f + 1)%Z.

(** [numpy.round(x, 3)]: scale by [10^3], round to the nearest integer,
    scale back. *)
Definition np_round3 (x : R) : R := (IZR (rint (x * 1000)) / 1000)%R.

(** The builtin [round(x, 3)], which the model file calls (it does not
    import numpy's): the multiple of [1/1000] nearest to [x], ties to the
    even one.  On exact numbers it returns what [np_round3] returns; on
    binary64 numbers it does not, see [Double.np_round3] and
    [Double.builtin_round3]. *)
Definition builtin_round3 (x : R) : R := (IZR (rint (x * 1000)) / 1000)%R.

(** ** Insertion-ordered dictionaries with integer keys *)

Abbreviation pydict V := (list (Z * V)).

Fixpoint dict_get {V} (d : pydict V) (k : Z) : option V :=
  match d with
  | [] => None
  | (k', v) :: rest => if decide (k' = k) then Some v else dict_get rest k
  end.

(** [d[k] = v]: overwrite in place, or append a new key at the end. *)
Fixpoint dict_set {V} (d : pydict V) (k : Z) (v : V) : pydict V :=
  match d with
  | [] => [(k, v)]
  | (k', v') :: rest =>
      if decide (k' = k) then (k', v) :: rest else (k', v') :: dict_set rest k v
  end.

(** [{k: v for k, v in items}]. *)
Definition dict_of_items {V} (items : list (Z * V)) : pydict V :=
  fold_left (λ d kv, dict_set d kv.1 kv.2) items [].

(** ** Vectorizer data *)

Abbreviation term := string.

(** A termset in the order in which iterating the frozenset yields its terms. *)
Abbreviation termset := (list string).

(** The termset occurrence map, a dict in insertion order:
    termset ↦ set of document ids. *)
Abbreviation occurrence_map := (list (list string * gset Z)).

(** [inv_index[term]] is a record holding the posting list of [(id, tf)]. *)
Record index_entry : Type := IndexEntry { posting_list : list (Z * Z) }.

Abbreviation inverted_index_t := (gmap string index_entry).

(** A dense matrix; [ncols] is kept apart because a matrix without rows
    still has columns. *)
Record matrix : Type := Matrix { ncols : nat; mrows : list (list R) }.

(** ** [calculate_ts_idf] *)

Definition ts_idf_entry (N : Z) (value : gset Z) : result R :=
  q ← int_truediv N (set_len value);
  l ← py_log2 (1 + q);
  Ok (np_round3 l).

Definition calculate_ts_idf (termsets : occurrence_map) (N : Z) : result (list R) :=
  mapM (λ entry, ts_idf_entry N entry.2) termsets.

(** ** [calculate_tsf] *)

(** [if id in temp: temp[id] += [tf] else: temp[id] = [tf]] *)
Definition temp_add (temp : pydict (list Z)) (id tf : Z) : pydict (list Z) :=
  match dict_get temp id with
  | Some tfs => dict_set temp id (tfs ++ [tf])
  | None => dict_set temp id [tf]
  end.

(** [for id, tf in post_list: if id in docs: ...] *)
Definition scan_postings (docs : gset Z) (post_list : list (Z * Z))
    (temp : pydict (list Z)) : pydict (list Z) :=
  fold_left (λ temp p, if decide (p.1 ∈ docs) then temp_add temp p.1 p.2 else temp)
            post_list temp.

(** [for term in terms: post_list = inv_index[term]['posting_list']; ...] *)
Fixpoint collect_tfs (inv_index : inverted_index_t) (docs : gset Z)
    (terms : list term) (temp : pydict (list Z)) : result (pydict (list Z)) :=
  match terms with
  | [] => Ok temp
  | t :: rest =>
      match inv_index !! t with
      | None => Raise KeyError
      | Some e =>
          collect_tfs inv_index docs rest (scan_postings docs (posting_list e) temp)
      end
  end.

(** [min(tfs)] *)
Definition py_min (l : list Z) : result Z :=
  match l with
  | [] => Raise ValueError
  | x :: rest => Ok (fold_left Z.min rest x)
  end.

(** [row[k] = v] with numpy's index rule: [-n <= k < n], negative indices
    counting from the end. *)
Definition np_setitem (row : list R) (k : Z) (v : R) : result (list R) :=
  let n := len row in
  if decide (0 ≤ k < n)%Z then Ok (<[Z.to_nat k := v]> row)
  else if decide (- n ≤ k < 0)%Z then Ok (<[Z.to_nat (n + k) := v]> row)
  else Raise IndexError.

(** [for id, tfs in temp.items(): tf_ij[i, id-1] = round(1 + log2(min(tfs)), 3)] *)
Fixpoint assign_row (items : pydict (list Z)) (row : list R) : result (list R) :=
  match items with
  | [] => Ok row
  | (id, tfs) :: rest =>
      m ← py_min tfs;
      l ← py_log2 (IZR m);
      row' ← np_setitem row (id - 1) (np_round3 (1 + l));
      assign_row rest row'
  end.

(** The body of the loop over termsets: row [i] is only written while
    termset [i] is processed. *)
Definition tsf_row (inv_index : inverted_index_t) (N : nat)
    (entry : termset * gset Z) : result (list R) :=
  temp ← collect_tfs inv_index entry.2 entry.1 [];
  assign_row temp (replicate N 0%R).

Definition calculate_tsf (termsets : occurrence_map) (inv_index : inverted_index_t)
    (N : Z) : result matrix :=
  if decide (N < 0)%Z then Raise ValueError
  else
    rows ← mapM (tsf_row inv_index (Z.to_nat N)) termsets;
    Ok {| ncols := Z.to_nat N; mrows := rows |}.

(** ** [calculate_tnw] *)

(** [if term in nwk: tnw *= nwk[term]] *)
Definition tnw_step (nwk : gmap string R) (tnw : R) (t : term) : R :=
  match nwk !! t with
  | Some w => (tnw * w)%R
  | None => tnw
  end.

(** [tnw = 1; for term in termset: ...] *)
Definition tnw_product (nwk : gmap string R) (ts : termset) : R :=
  fold_left (tnw_step nwk) ts 1%R.

Definition calculate_tnw (termsets : occurrence_map) (nwk : gmap string R) : list R :=
  (λ entry, np_round3 (tnw_product nwk entry.1)) <$> termsets.

(** ** Scorer: [cosine_similarity] and [evaluate_sim] *)

(** [all(u == 0)] *)
Definition all_zero (u : list R) : bool := forallb (λ x, bool_decide (x = 0%R)) u.

(** [numpy.dot] on two vectors; shapes must agree. *)
Definition dot (u v : list R) : result R :=
  if decide (length u = length v)
  then Ok (foldr Rplus 0%R (zip_with Rmult u v))
  else Raise ValueError.

(** [numpy.linalg.norm]: the Euclidean norm. *)
Definition norm (u : list R) : R := sqrt (foldr Rplus 0%R ((λ x, x * x)%R <$> u)).

(** On exact numbers; [Double.cosine_similarity] is the same code on
    binary64 numbers, where a norm can underflow. *)
Definition cosine_similarity (u v : list R) : result R :=
  if all_zero u || all_zero v then Ok 0%R
  else d ← dot u v; Ok (d / (norm u * norm v))%R.

(** Column [j] (0-based) of a matrix, and the columns in order ([dtm.T]). *)
Definition column (dtm : matrix) (j : nat) : list R :=
  (λ row, nth j row 0%R) <$> mrows dtm.

Definition transpose (dtm : matrix) : list (list R) :=
  column dtm <$> seq 0 (ncols dtm).

(** [enumerate(l, start)] *)
Fixpoint enumerate {A} (start : Z) (l : list A) : list (Z * A) :=
  match l with
  | [] => []
  | x :: rest => (start, x) :: enumerate (start + 1) rest
  end.

(** [sorted(items, key=lambda item: item[1], reverse=True)].  Python's sort
    is stable, also under [reverse=True]; the stable descending order of a
    list is unique, and insertion from the right computes it. *)
Fixpoint insert_desc (x : Z * R) (l : list (Z * R)) : list (Z * R) :=
  match l with
  | [] => [x]
  | y :: rest =>
      if Rle_dec y.2 x.2 then x :: y :: rest else y :: insert_desc x rest
  end.

Definition sorted_desc (items : list (Z * R)) : list (Z * R) :=
  foldr insert_desc [] items.

(** [for id, doc_vec in enumerate(dtm.T, start=1): doc_sim[id] = ...] *)
Fixpoint sim_loop (query : list R) (cols : list (Z * list R)) (doc_sim : pydict R)
  : result (pydict R) :=
  match cols with
  | [] => Ok doc_sim
  | (id, doc_vec) :: rest =>
      s ← cosine_similarity query doc_vec;
      sim_loop query rest (dict_set doc_sim id s)
  end.

Definition evaluate_sim (query : list R) (dtm : matrix) : result (pydict R) :=
  doc_sim ← sim_loop query (enumerate 1 (transpose dtm)) [];
  Ok (dict_of_items (sorted_desc doc_sim)).

(** ** The model class of [infre/models/bmodel.py] *)

Module BaseIRModel.

(** [self.collection], with the two attributes the methods read. *)
Record collection_t : Type := Collection {
  num_docs : Z;
  inverted_index : inverted_index_t
}.

Record t : Type := Model { collection : collection_t }.

Definition query2vec (self : t) (termsets : occurrence_map) : result (list R) :=
  let N := num_docs (collection self) in
  mapM (λ entry,
          q ← int_truediv N (set_len entry.2);
          l ← py_log2 (1 + q);
          Ok (builtin_round3 l)) termsets.

(** The three nested loops of [termsets2vec], innermost first. *)
Fixpoint scan (docs : gset Z) (post_list : list (Z * Z)) (temp : pydict (list Z))
  : pydict (list Z) :=
  match post_list with
  | [] => temp
  | (id, tf) :: rest =>
      if decide (id ∈ docs) then scan docs rest (temp_add temp id tf)
      else scan docs rest temp
  end.

Fixpoint collect (inv_index : inverted_index_t) (docs : gset Z)
    (terms : list term) (temp : pydict (list Z)) : result (pydict (list Z)) :=
  match terms with
  | [] => Ok temp
  | t :: rest =>
      e ← match inv_index !! t with Some e => Ok e | None => Raise KeyError end;
      collect inv_index docs rest (scan docs (posting_list e) temp)
  end.

Fixpoint assign (items : pydict (list Z)) (row : list R) : result (list R) :=
  match items with
  | [] => Ok row
  | (id, tfs) :: rest =>
      m ← py_min tfs;
      l ← py_log2 (IZR m);
      row' ← np_setitem row (id - 1) (builtin_round3 (1 + l));
      assign rest row'
  end.

Fixpoint rows_loop (inv_index : inverted_index_t) (N : nat)
    (termsets : occurrence_map) : result (list (list R)) :=
  match termsets with
  | [] => Ok []
  | (ts, docs) :: rest =>
      temp ← collect inv_index docs ts [];
      row ← assign temp (replicate N 0%R);
      rows ← rows_loop inv_index N rest;
      Ok (row :: rows)
  end.

Definition termsets2vec (self : t) (termsets : occurrence_map) : result matrix :=
  let N := num_docs (collection self) in
  let inv_index := inverted_index (collection self) in
  if decide (N < 0)%Z then Raise ValueError
  else
    tsf_ij ← rows_loop inv_index (Z.to_nat N) termsets;
    Ok {| ncols := Z.to_nat N; mrows := tsf_ij |}.

(** [qd_similarities] calls the [cosine_similarity] of [infre.metrics],
    which is imported, not defined, in the model file: it is a parameter. *)
Definition qd_similarities (cosine : list R → list R → result R)
    (query : list R) (dtsm : matrix) : result (pydict R) :=
  items ← mapM (λ c, s ← cosine query c.2; Ok (c.1, s)) (enumerate 1 (transpose dtsm));
  Ok (dict_of_items items).

Definition rank_documents (qd_sims : pydict R) : pydict R :=
  dict_of_items (sorted_desc qd_sims).

End BaseIRModel.

(** ** The vectorizer and the ranking as the specification words them *)

(** idf-style weight of a termset occurring in [docs] out of [N] documents. *)
Definition idf_weight (N : Z) (docs : gset Z) : R :=
  np_round3 (log2 (1 + IZR N / IZR (set_len docs))).

(** Term frequency of [t] in document [d], looked up from the postings. *)
Definition term_freq (inv_index : inverted_index_t) (t : term) (d : Z) : option Z :=
  e ← inv_index !! t; dict_get (posting_list e) d.

(** Minimum term frequency across the terms of a termset in document [d]. *)
Definition min_term_freq (inv_index : inverted_index_t) (ts : termset) (d : Z)
  : option Z :=
  tfs ← mapM (λ t, term_freq inv_index t d) ts;
  match tfs with
  | [] => None
  | x :: rest => Some (foldr Z.min x rest)
  end.

Definition tsf_weight (min_tf : Z) : R := np_round3 (1 + log2 (IZR min_tf)).

(** Cell of the matrix at row [i] (0-based) and document [d] (1-based). *)
Definition cell (M : matrix) (i : nat) (d : Z) : option R :=
  row ← mrows M !! i; row !! Z.to_nat (d - 1).

(** Document ids of the posting list of a term. *)
Definition posting_docs (inv_index : inverted_index_t) (t : term) : gset Z :=
  match inv_index !! t with
  | Some e => list_to_set (posting_list e).*1
  | None => ∅
  end.

(** Documents in which all the terms of a termset co-occur. *)
Definition cooccurrence (inv_index : inverted_index_t) (ts : termset) : gset Z :=
  match ts with
  | [] => ∅
  | t :: rest => foldr (λ t' acc, posting_docs inv_index t' ∩ acc)
                       (posting_docs inv_index t) rest
  end.

(** Data-model invariants of the index entry of a term used by a termset:
    document ids are unique within a posting list and lie in [1..N]; term
    frequencies are positive. *)
Definition entry_ok (N : Z) (e : index_entry) : bool :=
  forallb (λ p, bool_decide (1 ≤ p.1 ≤ N)%Z && bool_decide (1 ≤ p.2)%Z) (posting_list e)
  && bool_decide (NoDup (posting_list e).*1).

(** The occurrence map is consistent with the index: every termset is
    non-empty, its terms are indexed, and its document set is the
    intersection of the document sets of its terms. *)
Definition consistent (termsets : occurrence_map) (inv_index : inverted_index_t)
    (N : Z) : bool :=
  forallb (λ entry : termset * gset Z,
     bool_decide (entry.1 ≠ [])
     && forallb (λ t, match inv_index !! t with
                      | Some e => entry_ok N e
                      | None => false
                      end) entry.1
     && bool_decide (entry.2 = cooccurrence inv_index entry.1)) termsets.


(** Non-increasing similarity along a ranking. *)
Definition sim_desc (a b : Z * R) : Prop := (b.2 <= a.2)%R.

(** ** [calculate_tf] *)

(** An insertion-ordered dictionary keyed by terms. *)
Fixpoint odict_get {K V} `{EqDecision K} (d : list (K * V)) (k : K) : option V :=
  match d with
  | [] => None
  | (k', v) :: rest => if decide (k' = k) then Some v else odict_get rest k
  end.

Fixpoint odict_set {K V} `{EqDecision K} (d : list (K * V)) (k : K) (v : V)
  : list (K * V) :=
  match d with
  | [] => [(k, v)]
  | (k', v') :: rest =>
      if decide (k' = k) then (k', v) :: rest else (k', v') :: odict_set rest k v
  end.

(** [if term not in tf: tf[term] = 1 elif term in tf: tf[term] += 1] *)
Definition tf_step (tf : list (term * Z)) (t : term) : list (term * Z) :=
  match odict_get tf t with
  | None => odict_set tf t 1%Z
  | Some c => odict_set tf t (c + 1)%Z
  end.

Definition calculate_tf (terms : list term) : list (term * Z) :=
  fold_left tf_step terms [].

(** ** [calculate_doc_vectors] *)

(** The third argument: a Python [int], another scalar, or a vector. *)
Inductive tnw_arg : Type :=
  | TnwInt (z : Z)
  | TnwFloat (r : R)
  | TnwArray (a : list R).

(** numpy broadcasting of one axis of length [m] against one of length [k]. *)
Definition broadcast_len (m k : nat) : result nat :=
  if decide (m = k) then Ok m
  else if decide (m = 1) then Ok k
  else if decide (k = 1) then Ok m
  else Raise ValueError.

(** Index read along an axis of length [dim] for position [j] of the
    broadcast result: an axis of length 1 is repeated. *)
Definition pick (dim j : nat) : nat := if decide (dim = 1) then 0 else j.

(** [idf * tnw] on two vectors. *)
Definition np_mul_vec (a b : list R) : result (list R) :=
  bl ← broadcast_len (length a) (length b);
  Ok ((λ j, (nth (pick (length a) j) a 0 * nth (pick (length b) j) b 0)%R)
        <$> seq 0 bl).

(** [round((tf_ij.T * w).T, 3)]: [tf_ij.T] has shape [(N, m)], [w] is
    broadcast along its last axis, and the product is transposed back. *)
Definition scale_rows (tf_ij : matrix) (w : list R) : result matrix :=
  let m := length (mrows tf_ij) in
  bl ← broadcast_len m (length w);
  Ok {| ncols := ncols tf_ij;
        mrows := (λ j, (λ n, np_round3
                               (nth n (nth (pick m j) (mrows tf_ij) []) 0
                                * nth (pick (length w) j) w 0)%R)
                         <$> seq 0 (ncols tf_ij))
                   <$> seq 0 bl |}.

Definition calculate_doc_vectors (tf_ij : matrix) (idf : list R) (tnw : tnw_arg)
  : result matrix :=
  match tnw with
  | TnwInt _ => scale_rows tf_ij idf
  | TnwFloat r => scale_rows tf_ij ((λ x, x * r)%R <$> idf)
  | TnwArray a => w ← np_mul_vec idf a; scale_rows tf_ij w
  end.

(** ** The numeric code on binary64 numbers *)

Module Double.
Import Stdlib.Floats.PrimFloat.
Local Open Scope float_scope.

(** A Python int as a binary64 number; exact for [|n| < 2^53]. *)
Definition of_int (n : Z) : float :=
  if (n <? 0)%Z then - of_uint63 (Uint63.of_Z (- n))
  else of_uint63 (Uint63.of_Z n).

(** The integer nearest to [m * 2^e], ties to the even one. *)
Definition nearest_even (m e : Z) : Z :=
  if (0 <=? e)%Z then (m * 2 ^ e)%Z
  else
    let d := (2 ^ (- e))%Z in
    let q := (m / d)%Z in
    match (2 * (m mod d) ?= d)%Z with
    | Lt => q
    | Gt => (q + 1)%Z
    | Eq => if Z.even q then q else (q + 1)%Z
    end.

(** [numpy.rint]: the nearest integer, ties to even.  A number with a
    non-negative exponent is an integer already; zeros, infinities and NaN
    are returned as they are. *)
Definition rint (x : float) : float :=
  match FloatOps.Prim2SF x with
  | SpecFloat.S754_finite s m e =>
      if (0 <=? e)%Z then x
      else
        let k := of_int (nearest_even (Z.pos m) e) in
        if s then - k else k
  | _ => x
  end.

(** [numpy.round(x, 3)]: the product [x * 1000], itself rounded to
    binary64, is rounded to an integer and divided by 1000. *)
Definition np_round3 (x : float) : float := rint (x * 1000) / 1000.

(** The builtin [round(x, 3)] is correctly rounded: it returns the binary64
    number nearest to [k / 1000], where [k] is the integer nearest to the
    exact value of [x] times 1000, ties to even (exact for
    [|x| < 2^53 / 1000]). *)
Definition builtin_round3 (x : float) : float :=
  match FloatOps.Prim2SF x with
  | SpecFloat.S754_finite s m e =>
      if (0 <=? e)%Z then x
      else
        let k := of_int (nearest_even (1000 * Z.pos m) e) in
        (if s then - k else k) / 1000
  | _ => x
  end.

Section idf.

(** [math.log2] on a positive number is the C library's function. *)
Variable math_log2 : float → float.

Definition log2 (x : float) : result float :=
  if x <=? 0 then Raise ValueError else Ok (math_log2 x).

(** [a / b] on two Python ints below [2^53]. *)
Definition int_truediv (a b : Z) : result float :=
  if decide (b = 0%Z) then Raise ZeroDivisionError
  else Ok (of_int a / of_int b).

(** [calculate_ts_idf] of [infre/retrieval.py], where [round] is numpy's. *)
Definition calculate_ts_idf (termsets : occurrence_map) (N : Z)
  : result (list float) :=
  mapM (λ entry,
          q ← int_truediv N (set_len entry.2);
          l ← log2 (1 + q);
          Ok (np_round3 l)) termsets.

(** [BaseIRModel.query2vec] of [infre/models/bmodel.py], where [round] is
    the builtin. *)
Definition query2vec (self : BaseIRModel.t) (termsets : occurrence_map)
  : result (list float) :=
  let N := BaseIRModel.num_docs (BaseIRModel.collection self) in
  mapM (λ entry,
          q ← int_truediv N (set_len entry.2);
          l ← log2 (1 + q);
          Ok (builtin_round3 l)) termsets.

End idf.

(** [all(u == 0)]: [-0.0 == 0] holds, [nan == 0] does not. *)
Definition all_zero (u : list float) : bool := forallb (λ x, x =? 0) u.

(** [numpy.dot] and the sum of squares of [numpy.linalg.norm], accumulated
    from left to right (numpy does not fix the order; on vectors of one
    component there is only one). *)
Definition dot (u v : list float) : result float :=
  if decide (length u = length v)
  then Ok (fold_left (λ acc p, acc + p.1 * p.2) (zip u v) 0)
  else Raise ValueError.

Definition norm (u : list float) : float :=
  sqrt (fold_left (λ acc x, acc + x * x) u 0).

(** [cosine_similarity] of [infre/retrieval.py] *)
Definition cosine_similarity (u v : list float) : result float :=
  if all_zero u || all_zero v then Ok 0
  else d ← dot u v; Ok (d / (norm u * norm v)).

End Double.

(** ** [BaseIRModel.fit] and [BaseIRModel.evaluate] *)

Module IRModel.
Section model.

(** The type of the model weights that [_model_func] returns and
    [_vectorizer] consumes. *)
Context {W : Type}.

(** [apriori] of [infre.tools], [cosine_similarity] and [precision_recall]
    of [infre.metrics] are imported by the model file; [_model_func] and
    [_vectorizer] are its abstract methods.  [precision_recall] returns two
    Python floats, which [evaluate] rounds with the builtin [round]. *)
Variable apriori : list term → inverted_index_t → Z → result occurrence_map.
Variable _model_func : occurrence_map → result W.
Variable _vectorizer : matrix → list R → W → result matrix.
Variable cosine_similarity : list R → list R → result R.
Variable precision_recall
  : list Z → gset Z → result (PrimFloat.float * PrimFloat.float).

(** The attributes of the model object. *)
Record state : Type := State {
  self : BaseIRModel.t;
  _q2vec : list (list R);
  _docs2vec : list matrix;
  precision : list PrimFloat.float;
  recall : list PrimFloat.float;
  _m_weights : list W
}.

(** [__init__] *)
Definition init (collection : BaseIRModel.collection_t) : state :=
  {| self := BaseIRModel.Model collection;
     _q2vec := []; _docs2vec := []; precision := []; recall := [];
     _m_weights := [] |}.

(** One iteration of the loop of [fit]: the object after it, and the
    exception that ended it, if any. *)
Definition fit_step (mf : Z) (st : state) (query : list term) : state * option exn :=
  let inv_index := BaseIRModel.inverted_index (BaseIRModel.collection (self st)) in
  match apriori query inv_index mf with
  | Raise e => (st, Some e)
  | Ok freq_termsets =>
      match BaseIRModel.query2vec (self st) freq_termsets with
      | Raise e => (st, Some e)
      | Ok idf_vec =>
          match BaseIRModel.termsets2vec (self st) freq_termsets with
          | Raise e => (st, Some e)
          | Ok tsf_ij =>
              let st1 := {| self := self st;
                            _q2vec := _q2vec st ++ [idf_vec];
                            _docs2vec := _docs2vec st ++ [tsf_ij];
                            precision := precision st;
                            recall := recall st;
                            _m_weights := _m_weights st |} in
              match _model_func freq_termsets with
              | Raise e => (st1, Some e)
              | Ok w =>
                  ({| self := self st1;
                      _q2vec := _q2vec st1;
                      _docs2vec := _docs2vec st1;
                      precision := precision st1;
                      recall := recall st1;
                      _m_weights := _m_weights st1 ++ [w] |}, None)
              end
          end
      end
  end.

Fixpoint fit (mf : Z) (st : state) (queries : list (list term))
  : state * option exn :=
  match queries with
  | [] => (st, None)
  | query :: rest =>
      match fit_step mf st query with
      | (st', None) => fit mf st' rest
      | (st', Some e) => (st', Some e)
      end
  end.

(** [zip(a, b, c)] *)
Fixpoint zip3 {A B C} (a : list A) (b : list B) (c : list C) : list (A * B * C) :=
  match a, b, c with
  | x :: a', y :: b', z :: c' => (x, y, z) :: zip3 a' b' c'
  | _, _, _ => []
  end.

(** One iteration of the loop of [evaluate], at index [i]. *)
Definition evaluate_step (st : state) (i : nat) (item : list R * matrix * gset Z)
  : state * option exn :=
  let '(qv, dv, rel) := item in
  match _m_weights st !! i with
  | None => (st, Some IndexError)
  | Some w =>
      match _vectorizer dv qv w with
      | Raise e => (st, Some e)
      | Ok dtsm =>
          match BaseIRModel.qd_similarities cosine_similarity qv dtsm with
          | Raise e => (st, Some e)
          | Ok qd_sims =>
              let retrieved_docs := BaseIRModel.rank_documents qd_sims in
              match precision_recall retrieved_docs.*1 rel with
              | Raise e => (st, Some e)
              | Ok (pre, rec) =>
                  ({| self := self st;
                      _q2vec := _q2vec st;
                      _docs2vec := _docs2vec st;
                      precision := precision st ++ [Double.builtin_round3 pre];
                      recall := recall st ++ [Double.builtin_round3 rec];
                      _m_weights := _m_weights st |}, None)
              end
          end
      end
  end.

Fixpoint evaluate_loop (st : state) (i : nat)
    (items : list (list R * matrix * gset Z)) : state * option exn :=
  match items with
  | [] => (st, None)
  | item :: rest =>
      match evaluate_step st i item with
      | (st', None) => evaluate_loop st' (S i) rest
      | (st', Some e) => (st', Some e)
      end
  end.

(** [evaluate]: the object after the call, and the pair of arrays it
    returns or the exception it raises. *)
Definition evaluate (st : state) (relevant : list (gset Z))
  : state * result (list PrimFloat.float * list PrimFloat.float) :=
  match evaluate_loop st 0 (zip3 (_q2vec st) (_docs2vec st) relevant) with
  | (st', None) => (st', Ok (precision st', recall st'))
  | (st', Some e) => (st', Raise e)
  end.

(** The precision and the recall of the ranking of query [i], before they
    are rounded: the body of the loop of [evaluate] up to the call of
    [precision_recall]. *)
Definition query_scores (weights : list W) (i : nat)
    (item : list R * matrix * gset Z)
  : result (PrimFloat.float * PrimFloat.float) :=
  let '(qv, dv, rel) := item in
  w ← match weights !! i with Some w => Ok w | None => Raise IndexError end;
  dtsm ← _vectorizer dv qv w;
  qd_sims ← BaseIRModel.qd_similarities cosine_similarity qv dtsm;
  precision_recall (BaseIRModel.rank_documents qd_sims).*1 rel.

End model.
End IRModel.

(** * Proofs *)

(** ** Generic list facts *)

Lemma filter_ext_on {A} (P1 P2 : A → Prop)
    `{!∀ x, Decision (P1 x), !∀ x, Decision (P2 x)} (l : list A) :
  (∀ x, x ∈ l → P1 x ↔ P2 x) → filter P1 l = filter P2 l.
Proof.
  induction l as [|a l IH]; intros Hl; [done|].
  rewrite !filter_cons.
  assert (P1 a ↔ P2 a) as Ha by (apply Hl; left).
  rewrite IH by (intros x Hx; apply Hl; by right).
  repeat case_decide; tauto.
Qed.

Lemma StronglySorted_fmap_on {A B} (f : A → B) (R1 : relation A)
    (R2 : relation B) (l : list A) :
  StronglySorted R1 l →
  (∀ x y, x ∈ l → y ∈ l → R1 x y → R2 (f x) (f y)) →
  StronglySorted R2 (f <$> l).
Proof.
  induction 1 as [|x l Hs IH Hx]; intros Hf; csimpl; constructor.
  - apply IH. intros y z Hy Hz. apply Hf; by right.
  - apply Forall_fmap, Forall_forall. intros y Hy. simpl.
    apply Hf; [left|by right|]. rewrite Forall_forall in Hx. by apply Hx.
Qed.

Lemma mapM_cons_result {A B} (f : A → result B) (x : A) (l : list A) :
  mapM f (x :: l) = (y ← f x; k ← mapM f l; Ok (y :: k)).
Proof. reflexivity. Qed.

(** ** Evaluator *)

Section evaluator.
Implicit Types (ranked l : list Z) (relevant : gset Z) (d : Z) (k : nat).

Lemma truediv_int (a : Q) (b : Z) :
  b ≠ 0%Z → truediv a (inject_Z b) = Ok (a / inject_Z b)%Q.
Proof.
  intros Hb. unfold truediv.
  destruct (Qeq_bool (inject_Z b) 0) eqn:E; [|done].
  apply Qeq_bool_iff in E. unfold Qeq in E. simpl in E. lia.
Qed.

Lemma truediv_zero (a : Q) : truediv a (inject_Z 0) = Raise ZeroDivisionError.
Proof. reflexivity. Qed.

Lemma pr_loop_snoc relevant l d st :
  pr_loop relevant (l ++ [d]) st
  = (pr_loop relevant l st ≫= λ st', pr_step relevant st' d).
Proof.
  revert st. induction l as [|x l IH]; intros st; simpl.
  - by destruct (pr_step relevant st d).
  - destruct (pr_step relevant st x) as [st'|e]; simpl; [apply IH|done].
Qed.

(** The specification's quantities along a ranking extended by one
    document. *)
Lemma hits_all l relevant :
  hits l relevant (length l) = length (filter (λ d, d ∈ relevant) l).
Proof. unfold hits. by rewrite firstn_all. Qed.

Lemma hits_snoc_le l d relevant k :
  k ≤ length l → hits (l ++ [d]) relevant k = hits l relevant k.
Proof. intros Hk. unfold hits. by rewrite take_app_le. Qed.

Lemma hits_snoc_last l d relevant :
  hits (l ++ [d]) relevant (S (length l))
  = hits l relevant (length l) + (if decide (d ∈ relevant) then 1 else 0).
Proof.
  unfold hits. rewrite firstn_all, take_ge by (rewrite length_app; simpl; lia).
  rewrite filter_app, length_app, filter_cons, filter_nil.
  by case_decide.
Qed.

Lemma hits_le l relevant k : hits l relevant k ≤ k.
Proof.
  unfold hits. etrans; [apply length_filter|]. rewrite length_take. lia.
Qed.

Lemma hits_mono l relevant k k' :
  k ≤ k' → hits l relevant k ≤ hits l relevant k'.
Proof.
  intros Hk. unfold hits.
  rewrite <-(take_drop k (take k' l)), take_take, Nat.min_l by done.
  rewrite filter_app, length_app. lia.
Qed.

Lemma hit_positions_bound l relevant k :
  k ∈ hit_positions l relevant → 1 ≤ k ≤ length l.
Proof.
  unfold hit_positions. rewrite list_elem_of_filter, elem_of_seq. lia.
Qed.

Lemma hit_positions_snoc l d relevant :
  hit_positions (l ++ [d]) relevant
  = hit_positions l relevant
    ++ (if decide (d ∈ relevant) then [S (length l)] else []).
Proof.
  unfold hit_positions. rewrite length_app, Nat.add_1_r, seq_S, filter_app.
  f_equal.
  - apply filter_ext_on. intros k Hk%elem_of_seq.
    unfold relevant_at. rewrite lookup_app_l by lia. done.
  - simpl. rewrite filter_cons, filter_nil.
    assert (relevant_at (l ++ [d]) relevant (S (length l)) ↔ d ∈ relevant) as Hiff.
    { unfold relevant_at. simpl.
      by rewrite (list_lookup_middle l [] d (length l)). }
    repeat case_decide; tauto || done.
Qed.

Lemma length_hit_positions l relevant :
  length (hit_positions l relevant) = length (filter (λ d, d ∈ relevant) l).
Proof.
  induction l as [|d l IH] using rev_ind; [done|].
  rewrite hit_positions_snoc, filter_app, !length_app, IH. f_equal.
  rewrite filter_cons, filter_nil. by case_decide.
Qed.

Lemma recorded_precisions_snoc l d relevant :
  recorded_precisions (l ++ [d]) relevant
  = recorded_precisions l relevant
    ++ (if decide (d ∈ relevant)
        then [precision_at (l ++ [d]) relevant (S (length l))] else []).
Proof.
  unfold recorded_precisions. rewrite hit_positions_snoc, fmap_app. f_equal.
  - apply Forall_fmap_ext, Forall_forall. intros k Hk%hit_positions_bound.
    unfold precision_at. rewrite hits_snoc_le by lia. done.
  - by case_decide.
Qed.

Lemma recorded_recalls_snoc l d relevant :
  recorded_recalls (l ++ [d]) relevant
  = recorded_recalls l relevant
    ++ (if decide (d ∈ relevant)
        then [recall_at (l ++ [d]) relevant (S (length l))] else []).
Proof.
  unfold recorded_recalls. rewrite hit_positions_snoc, fmap_app. f_equal.
  - apply Forall_fmap_ext, Forall_forall. intros k Hk%hit_positions_bound.
    unfold recall_at. rewrite hits_snoc_le by lia. done.
  - by case_decide.
Qed.

Lemma set_len_pos relevant d : d ∈ relevant → set_len relevant ≠ 0%Z.
Proof.
  intros Hd. unfold set_len.
  assert (size relevant ≠ 0); [|lia].
  intros Hs%size_empty_inv. set_solver.
Qed.

(** The walk never raises, and it records exactly the specification's
    precision and recall values. *)
Lemma pr_loop_spec ranked relevant :
  pr_loop relevant ranked pr_init
  = Ok {| cnt := Z.of_nat (hits ranked relevant (length ranked));
          retrieved := Z.of_nat (S (length ranked));
          recall := recorded_recalls ranked relevant;
          precision := recorded_precisions ranked relevant |}.
Proof.
  induction ranked as [|d l IH] using rev_ind; [done|].
  rewrite pr_loop_snoc, IH. simpl. unfold pr_step. simpl.
  rewrite recorded_recalls_snoc, recorded_precisions_snoc.
  rewrite length_app, Nat.add_1_r.
  unfold precision_at, recall_at. rewrite hits_snoc_last.
  destruct (decide (d ∈ relevant)) as [Hd|Hd]; simpl.
  - rewrite truediv_int by (by eapply set_len_pos). simpl.
    rewrite !Nat2Z.inj_add. change (Z.of_nat 1) with 1%Z.
    by replace (Z.of_nat (S (S (length l)))) with (Z.of_nat (S (length l)) + 1)%Z by lia.
  - rewrite !app_nil_r, Nat.add_0_r.
    by replace (Z.of_nat (S (S (length l)))) with (Z.of_nat (S (length l)) + 1)%Z by lia.
Qed.
End evaluator.

Section evaluator_bounds.
Implicit Types (ranked l : list Z) (relevant : gset Z) (d : Z) (k : nat).

Lemma Qdiv_int_unit (a b : Z) :
  (0 ≤ a ≤ b)%Z → (0 < b)%Z →
  (0 <= inject_Z a / inject_Z b)%Q ∧ (inject_Z a / inject_Z b <= 1)%Q.
Proof.
  intros [Ha Hab] Hb.
  assert (0 < inject_Z b)%Q as Hb'.
  { change 0%Q with (inject_Z 0). by rewrite <-Zlt_Qlt. }
  split.
  - apply Qle_shift_div_l; [done|]. rewrite Qmult_0_l.
    change 0%Q with (inject_Z 0). by rewrite <-Zle_Qle.
  - apply Qle_shift_div_r; [done|]. rewrite Qmult_1_l.
    by rewrite <-Zle_Qle.
Qed.

Lemma Qdiv_int_mono (a a' b : Z) :
  (a ≤ a')%Z → (0 < b)%Z → (inject_Z a / inject_Z b <= inject_Z a' / inject_Z b)%Q.
Proof.
  intros Ha Hb. unfold Qdiv. apply Qmult_le_compat_r.
  - by rewrite <-Zle_Qle.
  - apply Qinv_le_0_compat. change 0%Q with (inject_Z 0).
    rewrite <-Zle_Qle. lia.
Qed.

Lemma relevant_at_elem l relevant k :
  relevant_at l relevant k → ∃ d, d ∈ l ∧ d ∈ relevant.
Proof.
  unfold relevant_at. destruct (l !! pred k) as [d|] eqn:E; [|done].
  intros Hd. exists d. split; [|done]. by eapply list_elem_of_lookup_2.
Qed.

(** Among distinct documents at most [|relevant|] are relevant. *)
Lemma hits_le_size l relevant k :
  NoDup l → hits l relevant k ≤ size relevant.
Proof.
  intros Hnd. unfold hits.
  set (h := filter (λ d, d ∈ relevant) (take k l)).
  assert (NoDup h) as Hh.
  { apply NoDup_filter. exact (sublist_NoDup _ _ Hnd (sublist_take l k)). }
  rewrite <-(size_list_to_set (C:=gset Z) h Hh).
  apply subseteq_size. intros x Hx%elem_of_list_to_set.
  by apply list_elem_of_filter in Hx as [? _].
Qed.

Lemma hit_positions_sorted l relevant :
  StronglySorted le (hit_positions l relevant).
Proof.
  induction l as [|d l IH] using rev_ind; [constructor|].
  rewrite hit_positions_snoc. apply StronglySorted_app; split_and!.
  - intros k1 k2 Hk1%hit_positions_bound Hk2.
    case_decide; [|by apply elem_of_nil in Hk2].
    apply list_elem_of_singleton in Hk2. lia.
  - done.
  - case_decide; repeat constructor.
Qed.

Lemma recorded_precisions_bounds l relevant :
  Forall (λ p, (0 <= p)%Q ∧ (p <= 1)%Q) (recorded_precisions l relevant).
Proof.
  unfold recorded_precisions. apply Forall_fmap, Forall_forall.
  intros k Hk%hit_positions_bound. simpl. unfold precision_at.
  apply Qdiv_int_unit; [|lia].
  pose proof (hits_le l relevant k). lia.
Qed.

Lemma recorded_recalls_bounds l relevant :
  NoDup l →
  Forall (λ r, (0 <= r)%Q ∧ (r <= 1)%Q) (recorded_recalls l relevant).
Proof.
  intros Hnd. unfold recorded_recalls. apply Forall_fmap, Forall_forall.
  intros k Hk. simpl. unfold recall_at, set_len.
  pose proof (hits_le_size l relevant k Hnd).
  apply list_elem_of_filter in Hk as [(d & _ & Hd)%relevant_at_elem _].
  pose proof (set_len_pos relevant d Hd). unfold set_len in *.
  apply Qdiv_int_unit; lia.
Qed.

Lemma recorded_recalls_sorted l relevant :
  StronglySorted Qle (recorded_recalls l relevant).
Proof.
  unfold recorded_recalls.
  eapply StronglySorted_fmap_on; [apply hit_positions_sorted|].
  intros k1 k2 Hk1 _ Hle. unfold recall_at.
  apply list_elem_of_filter in Hk1 as [(d & _ & Hd)%relevant_at_elem _].
  pose proof (set_len_pos relevant d Hd). unfold set_len in *.
  apply Qdiv_int_mono; [|lia].
  apply inj_le. by apply hits_mono.
Qed.
End evaluator_bounds.

Section evaluator_claims.
Implicit Types (ranked : list Z) (relevant : gset Z) (d : Z).

Lemma recorded_length ranked relevant :
  length (recorded_precisions ranked relevant)
  = length (filter (λ d, d ∈ relevant) ranked)
  ∧ length (recorded_recalls ranked relevant)
    = length (filter (λ d, d ∈ relevant) ranked).
Proof.
  unfold recorded_precisions, recorded_recalls.
  by rewrite !length_fmap, length_hit_positions.
Qed.

Lemma some_hit_filter ranked relevant :
  (∃ d, d ∈ ranked ∧ d ∈ relevant) ↔
  length (filter (λ d, d ∈ relevant) ranked) ≠ 0.
Proof.
  split.
  - intros (d & Hd & Hrel) Hlen. apply nil_length_inv in Hlen.
    assert (d ∈ filter (λ d, d ∈ relevant) ranked) as Hin
      by (by apply list_elem_of_filter).
    rewrite Hlen in Hin. by apply elem_of_nil in Hin.
  - destruct (filter (λ d, d ∈ relevant) ranked) as [|d h] eqn:E; [done|].
    intros _. exists d.
    assert (d ∈ filter (λ d, d ∈ relevant) ranked) as Hin by (rewrite E; left).
    apply list_elem_of_filter in Hin. tauto.
Qed.

(** The two outcomes of [calc_precision_recall]. *)
Lemma calc_precision_recall_hit ranked relevant :
  (∃ d, d ∈ ranked ∧ d ∈ relevant) →
  calc_precision_recall ranked relevant
  = Ok (average (recorded_precisions ranked relevant),
        average (recorded_recalls ranked relevant)).
Proof.
  intros Hhit%some_hit_filter. unfold calc_precision_recall.
  rewrite pr_loop_spec. simpl.
  destruct (recorded_length ranked relevant) as [Hp Hr].
  unfold len. rewrite !truediv_int by lia. done.
Qed.

Lemma calc_precision_recall_miss ranked relevant :
  (∀ d, d ∈ ranked → d ∉ relevant) →
  calc_precision_recall ranked relevant = Raise ZeroDivisionError.
Proof.
  intros Hmiss. unfold calc_precision_recall.
  rewrite pr_loop_spec. simpl.
  destruct (recorded_length ranked relevant) as [Hp _].
  assert (length (filter (λ d, d ∈ relevant) ranked) = 0) as Hz.
  { destruct (decide (length (filter (λ d, d ∈ relevant) ranked) = 0)) as [|Hn];
      [done|].
    apply some_hit_filter in Hn as (d & Hd & Hrel). by destruct (Hmiss d). }
  unfold len. rewrite Hp, Hz. done.
Qed.

(** C1: for a ranking of distinct document ids and a relevance set that
    contains a ranked document, [calc_precision_recall] returns the pair of
    the average of hits/position and the average of hits/|relevant| over
    the ranks whose document is relevant, hits being the running count of
    relevant documents; there is one recorded value per relevant ranked
    document, so the other ranks contribute nothing. *)
Theorem calc_precision_recall_averages ranked relevant :
  NoDup ranked →
  (∃ d, d ∈ ranked ∧ d ∈ relevant) →
  calc_precision_recall ranked relevant
  = Ok (average (recorded_precisions ranked relevant),
        average (recorded_recalls ranked relevant))
  ∧ length (recorded_precisions ranked relevant)
    = length (filter (λ d, d ∈ relevant) ranked)
  ∧ length (recorded_recalls ranked relevant)
    = length (filter (λ d, d ∈ relevant) ranked).
Proof.
  intros _ Hhit. split; [by apply calc_precision_recall_hit|].
  apply recorded_length.
Qed.

Lemma calc_precision_recall_averages_witness :
  calc_precision_recall [3; 2; 1; 5]%Z {[2; 5; 7]}%Z
  = Ok (average [(1 # 2)%Q; (2 # 4)%Q], average [(1 # 3)%Q; (2 # 3)%Q])
  ∧ length (recorded_precisions [3; 2; 1; 5]%Z {[2; 5; 7]}%Z) = 2
  ∧ length (recorded_recalls [3; 2; 1; 5]%Z {[2; 5; 7]}%Z) = 2.
Proof.
  assert (NoDup [3; 2; 1; 5]%Z) as Hnd by (by apply (bool_decide_unpack _)).
  assert (∃ d : Z, d ∈ [3; 2; 1; 5]%Z ∧ d ∈ ({[2; 5; 7]}%Z : gset Z)) as Hhit.
  { exists 2%Z. split; by apply (bool_decide_unpack _). }
  generalize (calc_precision_recall_averages _ _ Hnd Hhit).
  vm_compute. exact (λ H, H).
Defined.

(** C4, as amended: [calc_precision_recall] fails with the division-by-zero
    error of averaging no sample when the relevance set is empty, and
    returns a pair when the relevance set contains a ranked document. *)
Theorem calc_precision_recall_empty_relevant ranked relevant :
  (relevant = ∅ → calc_precision_recall ranked relevant = Raise ZeroDivisionError)
  ∧ ((∃ d, d ∈ ranked ∧ d ∈ relevant) →
     ∃ pr, calc_precision_recall ranked relevant = Ok pr).
Proof.
  split.
  - intros ->. apply calc_precision_recall_miss. set_solver.
  - intros Hhit. eexists. by apply calc_precision_recall_hit.
Qed.

(** C4, counterexample: with the non-empty relevance set {2} and the
    ranking [1], [calc_precision_recall] fails with the very error it
    raises on an empty relevance set. *)
Lemma calc_precision_recall_nonempty_fails :
  ({[2%Z]} : gset Z) ≠ ∅
  ∧ calc_precision_recall [1%Z] {[2%Z]} = Raise ZeroDivisionError
  ∧ calc_precision_recall [1%Z] ∅ = Raise ZeroDivisionError.
Proof. split; [|split]; [by apply (bool_decide_unpack _)|done|done]. Qed.

(** Scenario E of the specification: two ranked documents, the first one
    relevant. *)
Example scenario_E : calc_precision_recall [2; 1]%Z {[2%Z]} = Ok (1, 1)%Q.
Proof. reflexivity. Qed.

(** C8: for a ranking of distinct document ids and a relevance set with a
    ranked relevant document, the walk succeeds, every recorded precision
    and every recorded recall lies in [0, 1], and the recorded recalls are
    non-decreasing in rank order. *)
Theorem recorded_values_bounds ranked relevant :
  NoDup ranked →
  (∃ d, d ∈ ranked ∧ d ∈ relevant) →
  ∃ st, pr_loop relevant ranked pr_init = Ok st
    ∧ precision st ≠ []
    ∧ Forall (λ p, (0 <= p)%Q ∧ (p <= 1)%Q) (precision st)
    ∧ Forall (λ r, (0 <= r)%Q ∧ (r <= 1)%Q) (recall st)
    ∧ StronglySorted Qle (recall st).
Proof.
  intros Hnd Hhit. eexists. split; [apply pr_loop_spec|]. simpl.
  split_and!.
  - intros Hnil. apply some_hit_filter in Hhit.
    destruct (recorded_length ranked relevant) as [Hp _].
    rewrite Hnil in Hp. simpl in Hp. lia.
  - apply recorded_precisions_bounds.
  - by apply recorded_recalls_bounds.
  - apply recorded_recalls_sorted.
Qed.

Lemma recorded_values_bounds_witness :
  ∃ st, pr_loop {[2; 5; 7]}%Z [3; 2; 1; 5]%Z pr_init = Ok st
    ∧ precision st ≠ []
    ∧ Forall (λ p, (0 <= p)%Q ∧ (p <= 1)%Q) (precision st)
    ∧ Forall (λ r, (0 <= r)%Q ∧ (r <= 1)%Q) (recall st)
    ∧ StronglySorted Qle (recall st).
Proof.
  apply (recorded_values_bounds [3; 2; 1; 5]%Z {[2; 5; 7]}%Z).
  - by apply (bool_decide_unpack _).
  - exists 5%Z. split; by apply (bool_decide_unpack _).
Defined.

(** C9: [calc_precision_recall] raises [ZeroDivisionError] exactly when no
    ranked document is relevant; so it does whenever the relevance set is
    empty, and also for a non-empty relevance set disjoint from the
    ranking. *)
Theorem calc_precision_recall_fails_iff ranked relevant :
  (calc_precision_recall ranked relevant = Raise ZeroDivisionError
   ↔ ∀ d, d ∈ ranked → d ∉ relevant)
  ∧ (relevant = ∅ → calc_precision_recall ranked relevant = Raise ZeroDivisionError).
Proof.
  split; [split|].
  - intros Hfail d Hd Hrel.
    rewrite calc_precision_recall_hit in Hfail by eauto. done.
  - apply calc_precision_recall_miss.
  - intros ->. apply calc_precision_recall_miss. set_solver.
Qed.
End evaluator_claims.

(** ** Numeric primitives *)

Section numerics.
Local Open Scope R_scope.

Lemma Int_part_nonneg (x : R) : 0 <= x → (0 ≤ Int_part x)%Z.
Proof.
  intros Hx. destruct (base_Int_part x) as [_ Hlow].
  assert (-1 < IZR (Int_part x)) as Hlt by lra.
  apply lt_IZR in Hlt. lia.
Qed.

Lemma rint_nonneg (x : R) : 0 <= x → (0 ≤ rint x)%Z.
Proof.
  intros Hx%Int_part_nonneg. unfold rint.
  repeat destruct (Rlt_dec _ _); try destruct (Z.even _); lia.
Qed.

Lemma Int_part_IZR (z : Z) : Int_part (IZR z) = z.
Proof.
  destruct (base_Int_part (IZR z)) as [Hup Hlow].
  apply le_IZR in Hup.
  assert (IZR (z - 1) < IZR (Int_part (IZR z))) as Hlt
    by (rewrite minus_IZR; lra).
  apply lt_IZR in Hlt. lia.
Qed.

(** Integers are fixed points of rounding. *)
Lemma rint_IZR (z : Z) : rint (IZR z) = z.
Proof.
  unfold rint. rewrite Int_part_IZR.
  destruct (Rlt_dec _ _) as [|Hn]; [done|]. exfalso. apply Hn. lra.
Qed.

Lemma np_round3_nonneg (x : R) : 0 <= x → 0 <= np_round3 x.
Proof.
  intros Hx. unfold np_round3.
  assert (0 ≤ rint (x * 1000))%Z as Hr by (apply rint_nonneg; lra).
  apply IZR_le in Hr. lra.
Qed.

Lemma np_round3_IZR (z : Z) : np_round3 (IZR z) = IZR z.
Proof.
  unfold np_round3. rewrite <-(mult_IZR z 1000), rint_IZR, mult_IZR. lra.
Qed.

Lemma np_round3_0 : np_round3 0 = 0.
Proof. apply (np_round3_IZR 0). Qed.

Lemma np_round3_1 : np_round3 1 = 1.
Proof. apply (np_round3_IZR 1). Qed.

Lemma ln_2_pos : 0 < ln 2.
Proof. rewrite <-ln_1. apply ln_increasing; lra. Qed.

Lemma log2_nonneg (x : R) : 1 <= x → 0 <= log2 x.
Proof.
  intros Hx. unfold log2. pose proof ln_2_pos.
  assert (0 <= ln x) as Hln.
  { rewrite <-ln_1. destruct Hx as [Hx| <-]; [|lra].
    left. apply ln_increasing; lra. }
  apply Rmult_le_pos; [done|]. left. by apply Rinv_0_lt_compat.
Qed.

Lemma py_log2_pos (x : R) : 0 < x → py_log2 x = Ok (log2 x).
Proof.
  intros Hx. unfold py_log2. destruct (Rle_dec x 0); [lra|done].
Qed.

Lemma int_truediv_ok (a b : Z) :
  b ≠ 0%Z → int_truediv a b = Ok (IZR a / IZR b).
Proof. intros Hb. unfold int_truediv. by case_decide. Qed.
End numerics.

(** ** Query vector *)

Section query_vector.
Local Open Scope R_scope.

Lemma set_len_nonempty (s : gset Z) : s ≠ ∅ → (0 < set_len s)%Z.
Proof.
  intros Hs. unfold set_len.
  assert (size s ≠ 0%nat); [|lia]. by intros ?%size_empty_inv%leibniz_equiv.
Qed.

Lemma idf_ratio_nonneg (N : Z) (docs : gset Z) :
  (0 ≤ N)%Z → docs ≠ ∅ → 0 <= IZR N / IZR (set_len docs).
Proof.
  intros HN Hd%set_len_nonempty.
  apply IZR_le in HN. apply IZR_lt in Hd.
  apply Rmult_le_pos; [done|]. left. by apply Rinv_0_lt_compat.
Qed.

Lemma ts_idf_entry_ok (N : Z) (docs : gset Z) :
  (0 ≤ N)%Z → docs ≠ ∅ → ts_idf_entry N docs = Ok (idf_weight N docs).
Proof.
  intros HN Hd. unfold ts_idf_entry, idf_weight.
  pose proof (idf_ratio_nonneg N docs HN Hd).
  pose proof (set_len_nonempty docs Hd).
  rewrite int_truediv_ok by lia. simpl.
  rewrite py_log2_pos by lra. done.
Qed.

Lemma idf_weight_nonneg (N : Z) (docs : gset Z) :
  (0 ≤ N)%Z → docs ≠ ∅ → 0 <= idf_weight N docs.
Proof.
  intros HN Hd. unfold idf_weight.
  pose proof (idf_ratio_nonneg N docs HN Hd).
  apply np_round3_nonneg, log2_nonneg. lra.
Qed.


Example calculate_ts_idf_empty_docs :
  calculate_ts_idf [(["a"], ∅)] 2 = Raise ZeroDivisionError.
Proof. reflexivity. Qed.

End query_vector.

(** ** Termset-normalized weights *)

Section tnw.
Local Open Scope R_scope.
Implicit Types (nwk : gmap string R) (ts : termset).

Lemma tnw_fold_acc nwk ts (acc : R) :
  fold_left (tnw_step nwk) ts acc = acc * fold_left (tnw_step nwk) ts 1.
Proof.
  revert acc. induction ts as [|t ts IH]; intros acc; simpl; [lra|].
  rewrite IH, (IH (tnw_step nwk 1 t)). unfold tnw_step.
  destruct (nwk !! t); lra.
Qed.

Lemma tnw_product_cons nwk t ts :
  tnw_product nwk (t :: ts) = tnw_step nwk 1 t * tnw_product nwk ts.
Proof. unfold tnw_product. simpl. apply (tnw_fold_acc nwk ts). Qed.

Lemma tnw_product_app nwk ts1 ts2 :
  tnw_product nwk (ts1 ++ ts2) = tnw_product nwk ts1 * tnw_product nwk ts2.
Proof.
  induction ts1 as [|t ts1 IH]; simpl.
  - unfold tnw_product at 2. simpl. lra.
  - rewrite !tnw_product_cons, IH. lra.
Qed.



Lemma tnw_product_zero nwk ts t :
  t ∈ ts → nwk !! t = Some 0 → tnw_product nwk ts = 0.
Proof.
  intros (ts1 & ts2 & ->)%list_elem_of_split Ht.
  rewrite tnw_product_app, tnw_product_cons. unfold tnw_step. rewrite Ht. lra.
Qed.



End tnw.

(** ** Cosine similarity *)

Section cosine.
Local Open Scope R_scope.
Implicit Types (u v : list R).

Lemma all_zero_Forall u : all_zero u = true ↔ Forall (λ x, x = 0) u.
Proof.
  unfold all_zero. induction u as [|x u IH]; simpl.
  - split; [constructor|done].
  - rewrite andb_true_iff, bool_decide_eq_true, IH, Forall_cons. done.
Qed.

Lemma sum_squares_nonneg u : 0 <= foldr Rplus 0 ((λ x, x * x) <$> u).
Proof.
  induction u as [|x u IH]; csimpl; [lra|].
  pose proof (Rle_0_sqr x) as Hx. unfold Rsqr in Hx. lra.
Qed.

Lemma sum_squares_pos u :
  ¬ Forall (λ x, x = 0) u → 0 < foldr Rplus 0 ((λ x, x * x) <$> u).
Proof.
  induction u as [|x u IH]; intros Hnz; [by destruct Hnz|]. csimpl.
  pose proof (sum_squares_nonneg u).
  destruct (decide (x = 0)) as [->|Hx].
  - rewrite Rmult_0_l, Rplus_0_l. apply IH. intros Hu. apply Hnz. by constructor.
  - pose proof (Rsqr_pos_lt x Hx) as Hsq. unfold Rsqr in Hsq. lra.
Qed.

Lemma norm_pos u : ¬ Forall (λ x, x = 0) u → 0 < norm u.
Proof. intros Hu. unfold norm. by apply sqrt_lt_R0, sum_squares_pos. Qed.

End cosine.

(** ** The guard of the cosine similarity on binary64 numbers *)

Section cosine_guard.
Import Stdlib.Floats.PrimFloat.

Lemma double_all_zero_Forall (u : list float) :
  Double.all_zero u = true ↔ Forall (λ a, (a =? 0)%float = true) u.
Proof.
  unfold Double.all_zero. induction u as [|a u IH]; simpl.
  - split; [constructor|done].
  - by rewrite andb_true_iff, IH, Forall_cons.
Qed.

Lemma double_all_zero_false (u : list float) :
  ¬ Forall (λ a, (a =? 0)%float = true) u → Double.all_zero u = false.
Proof.
  rewrite <-double_all_zero_Forall. by destruct (Double.all_zero u).
Qed.

(** C6, as amended: on binary64 vectors [u], [v] of equal length, the
    similarity is exactly 0 when every component of [u], or every component
    of [v], compares equal to zero, and then nothing is divided; otherwise
    the result is the quotient of [dot(u, v)] by [norm(u) * norm(v)], with
    no check of the denominator.  On real vectors [x], [y] that are not
    all-zero that denominator is not zero; on binary64 vectors it can be,
    as for [u = v = [1e-200]] below. *)
Theorem cosine_similarity_guard (u v : list float) (x y : list R) :
  length u = length v →
  ((Forall (λ a, (a =? 0)%float = true) u
    ∨ Forall (λ a, (a =? 0)%float = true) v) →
     Double.cosine_similarity u v = Ok 0%float)
  ∧ (¬ Forall (λ a, (a =? 0)%float = true) u →
     ¬ Forall (λ a, (a =? 0)%float = true) v →
     ∃ d, Double.dot u v = Ok d
          ∧ Double.cosine_similarity u v
            = Ok (d / (Double.norm u * Double.norm v))%float)
  ∧ (¬ Forall (λ a, a = 0%R) x → ¬ Forall (λ a, a = 0%R) y →
     (norm x * norm y)%R ≠ 0%R).
Proof.
  intros Hlen. unfold Double.cosine_similarity. split_and!.
  - intros [Hu%double_all_zero_Forall|Hv%double_all_zero_Forall].
    + by rewrite Hu.
    + rewrite Hv. by rewrite orb_true_r.
  - intros Hu%double_all_zero_false Hv%double_all_zero_false.
    rewrite Hu, Hv. unfold Double.dot. rewrite decide_True by done.
    eexists. by split.
  - intros Hx Hy. pose proof (norm_pos x Hx). pose proof (norm_pos y Hy).
    apply Rgt_not_eq. by apply Rmult_lt_0_compat.
Qed.

Lemma cosine_similarity_guard_witness :
  ((Forall (λ a, (a =? 0)%float = true) [0; 0]%float
    ∨ Forall (λ a, (a =? 0)%float = true) [3; 4]%float) →
     Double.cosine_similarity [0; 0]%float [3; 4]%float = Ok 0%float)
  ∧ (¬ Forall (λ a, (a =? 0)%float = true) [0; 0]%float →
     ¬ Forall (λ a, (a =? 0)%float = true) [3; 4]%float →
     ∃ d, Double.dot [0; 0]%float [3; 4]%float = Ok d
          ∧ Double.cosine_similarity [0; 0]%float [3; 4]%float
            = Ok (d / (Double.norm [0; 0]%float * Double.norm [3; 4]%float))%float)
  ∧ (¬ Forall (λ a, a = 0%R) [3; 4]%R → ¬ Forall (λ a, a = 0%R) [1; 2]%R →
     (norm [3; 4]%R * norm [1; 2]%R)%R ≠ 0%R).
Proof.
  assert (length [0; 0]%float = length [3; 4]%float) as Hlen by reflexivity.
  exact (cosine_similarity_guard [0; 0]%float [3; 4]%float [3; 4]%R [1; 2]%R Hlen).
Defined.

(** The vector [u = [1e-200]] (the binary64 number nearest to it) is not
    all-zero, yet its square underflows: [norm(u)] is [0.0], the
    denominator [norm(u) * norm(u)] is [0.0], and the similarity of [u]
    with itself is [0.0 / 0.0], NaN. *)
Lemma cosine_similarity_underflow :
  length [0x1.87e92154ef7acp-665%float] = length [0x1.87e92154ef7acp-665%float]
  ∧ Double.all_zero [0x1.87e92154ef7acp-665%float] = false
  ∧ (Double.norm [0x1.87e92154ef7acp-665] * Double.norm [0x1.87e92154ef7acp-665])%float
    = 0%float
  ∧ Double.cosine_similarity [0x1.87e92154ef7acp-665%float]
      [0x1.87e92154ef7acp-665%float] = Ok nan.
Proof. by split_and!; vm_compute. Qed.
End cosine_guard.

(** ** The module-level helpers against the model methods *)

Section rounding.
Import Stdlib.Floats.PrimFloat.
Variable math_log2 : float → float.

(** C10 (contradicted by the code): the helper [calculate_ts_idf] rounds
    with [numpy.round], the method [query2vec] with the builtin [round].
    For a collection of 5185982 documents and a termset that occurs in
    4676633 of them, [math.log2] returns 1.0765000000000000124...; its
    product with 1000 rounds to the binary64 number 1076.5, so the helper
    returns 1.076 (the binary64 number [0x1.1374bc6a7ef9ep+0]), while the
    method, rounding the exact value, returns 1.077
    ([0x1.13b645a1cac08p+0]). *)
Theorem helper_and_method_round_differently (self : BaseIRModel.t)
    (ts : termset) (docs : gset Z) :
  BaseIRModel.num_docs (BaseIRModel.collection self) = 5185982%Z →
  set_len docs = 4676633%Z →
  math_log2 (1 + Double.of_int 5185982 / Double.of_int 4676633)%float
  = 0x1.1395810624dd3p+0%float →
  Double.calculate_ts_idf math_log2 [(ts, docs)] 5185982
  = Ok [0x1.1374bc6a7ef9ep+0%float]
  ∧ Double.query2vec math_log2 self [(ts, docs)]
    = Ok [0x1.13b645a1cac08p+0%float].
Proof.
  intros HN Hlen Hlog.
  unfold Double.calculate_ts_idf, Double.query2vec. rewrite HN.
  rewrite !mapM_cons_result. cbv beta. cbn [fst snd]. rewrite Hlen.
  assert (Double.int_truediv 5185982 4676633
          = Ok (Double.of_int 5185982 / Double.of_int 4676633)%float) as ->
    by reflexivity.
  assert (Double.log2 math_log2
            (1 + Double.of_int 5185982 / Double.of_int 4676633)%float
          = Ok 0x1.1395810624dd3p+0%float) as Hl.
  { unfold Double.log2. by rewrite Hlog. }
  cbn [mbind result_bind]. rewrite Hl.
  split; reflexivity.
Qed.
End rounding.

Section rounding_witness.
Import Stdlib.Floats.PrimFloat.

Lemma set_len_seqZ (n : Z) : (0 ≤ n)%Z → set_len (list_to_set (seqZ 1 n)) = n.
Proof.
  intros Hn. unfold set_len.
  rewrite size_list_to_set by apply NoDup_seqZ. rewrite length_seqZ. lia.
Qed.

Lemma helper_and_method_round_differently_witness :
  Double.calculate_ts_idf (λ _, 0x1.1395810624dd3p+0%float)
    [(["a"], list_to_set (seqZ 1 4676633))] 5185982
  = Ok [0x1.1374bc6a7ef9ep+0%float]
  ∧ Double.query2vec (λ _, 0x1.1395810624dd3p+0%float)
      (BaseIRModel.Model (BaseIRModel.Collection 5185982 ∅))
      [(["a"], list_to_set (seqZ 1 4676633))]
    = Ok [0x1.13b645a1cac08p+0%float].
Proof.
  apply (helper_and_method_round_differently (λ _, 0x1.1395810624dd3p+0%float)
           (BaseIRModel.Model (BaseIRModel.Collection 5185982 ∅)) ["a"]
           (list_to_set (seqZ 1 4676633))).
  - reflexivity.
  - apply set_len_seqZ. lia.
  - reflexivity.
Defined.
End rounding_witness.

(** ** Ranking *)

Section dicts.
Context {V : Type}.
Implicit Types (d items : pydict V) (k : Z) (v : V).

Lemma dict_set_fresh d k v : k ∉ d.*1 → dict_set d k v = d ++ [(k, v)].
Proof.
  induction d as [|[k' v'] d IH]; intros Hk; simpl; [done|].
  rewrite fmap_cons, not_elem_of_cons in Hk. destruct Hk as [Hne Hk].
  rewrite decide_False by done. by rewrite IH.
Qed.

Lemma fold_dict_set_fresh items d :
  NoDup (d ++ items).*1 →
  fold_left (λ d kv, dict_set d kv.1 kv.2) items d = d ++ items.
Proof.
  revert d. induction items as [|[k v] items IH]; intros d Hnd; simpl.
  - by rewrite app_nil_r.
  - rewrite dict_set_fresh.
    + rewrite IH; rewrite <-app_assoc; done.
    + rewrite fmap_app in Hnd. apply NoDup_app in Hnd as (_ & Hd & _).
      intros Hk. apply (Hd k Hk). csimpl. left.
Qed.

Lemma dict_of_items_NoDup items : NoDup items.*1 → dict_of_items items = items.
Proof. intros Hnd. unfold dict_of_items. by rewrite fold_dict_set_fresh. Qed.
End dicts.

Section sorting.
Local Open Scope R_scope.
Implicit Types (x y : Z * R) (l items : list (Z * R)).

Lemma insert_desc_perm x l : insert_desc x l ≡ₚ x :: l.
Proof.
  induction l as [|y l IH]; simpl; [done|].
  destruct (Rle_dec y.2 x.2); [done|].
  rewrite IH. apply Permutation_swap.
Qed.

Lemma sorted_desc_perm items : sorted_desc items ≡ₚ items.
Proof.
  induction items as [|x l IH]; simpl; [done|].
  by rewrite insert_desc_perm, IH.
Qed.

Lemma insert_desc_sorted x l :
  StronglySorted sim_desc l → StronglySorted sim_desc (insert_desc x l).
Proof.
  induction 1 as [|y l Hs IH Hy]; simpl; [repeat constructor|].
  destruct (Rle_dec y.2 x.2) as [Hle|Hgt].
  - constructor; [by constructor|]. constructor; [done|].
    eapply Forall_impl; [exact Hy|]. unfold sim_desc. intros z Hz. lra.
  - constructor; [done|]. rewrite insert_desc_perm.
    constructor; [|done]. unfold sim_desc. lra.
Qed.

Lemma sorted_desc_sorted items : StronglySorted sim_desc (sorted_desc items).
Proof.
  induction items as [|x l IH]; simpl; [constructor|].
  by apply insert_desc_sorted.
Qed.
End sorting.

Section ranking.
Local Open Scope R_scope.
Implicit Types (query u v : list R) (dtm : matrix).

Lemma enumerate_fmap_seq {A} (f : nat → A) (a n : nat) :
  enumerate (Z.of_nat a + 1) (f <$> seq a n)
  = (λ j, (Z.of_nat j + 1, f j)%Z) <$> seq a n.
Proof.
  revert a. induction n as [|n IH]; intros a; csimpl; [done|].
  f_equal. rewrite <-IH. f_equal. lia.
Qed.

Lemma cosine_similarity_total u v :
  length u = length v → ∃ s, cosine_similarity u v = Ok s.
Proof.
  intros Hlen. unfold cosine_similarity, dot.
  destruct (all_zero u || all_zero v); [by eexists|].
  rewrite decide_True by done. by eexists.
Qed.

(** The loop filling [doc_sim] is a map over the columns followed by the
    dictionary insertions. *)
Lemma sim_loop_mapM query (cols : list (Z * list R)) (acc : pydict R) :
  sim_loop query cols acc
  = (items ← mapM (λ c, s ← cosine_similarity query c.2; Ok (c.1, s)) cols;
     Ok (fold_left (λ d kv, dict_set d kv.1 kv.2) items acc)).
Proof.
  revert acc. induction cols as [|[id col] cols IH]; intros acc; [done|].
  cbn [mapM sim_loop]. simpl.
  destruct (cosine_similarity query col) as [s|]; simpl; [|done].
  rewrite IH. by destruct (mapM _ cols).
Qed.

Lemma column_sims query dtm (js : list nat) :
  length query = length (mrows dtm) →
  ∃ items,
    mapM (λ c, s ← cosine_similarity query c.2; Ok (c.1, s))
         ((λ j, (Z.of_nat j + 1, column dtm j)%Z) <$> js) = Ok items
    ∧ items.*1 = (λ j, Z.of_nat j + 1)%Z <$> js
    ∧ Forall (λ p, cosine_similarity query (column dtm (Z.to_nat (p.1 - 1)))
                   = Ok p.2) items.
Proof.
  intros Hlen. induction js as [|j js (items & Hm & Hk & Hs)].
  - exists []. by repeat split.
  - destruct (cosine_similarity_total query (column dtm j)) as [s Hcos].
    { unfold column. by rewrite length_fmap. }
    exists ((Z.of_nat j + 1, s)%Z :: items). split_and!.
    + rewrite fmap_cons, mapM_cons_result. cbv beta. cbn [fst snd].
      by rewrite Hcos, Hm.
    + csimpl. by rewrite Hk.
    + constructor; [|done]. simpl.
      by replace (Z.to_nat (Z.of_nat j + 1 - 1)) with j by lia.
Qed.

(** The model's two methods, composed, are [evaluate_sim]. *)
Lemma model_ranking_evaluate_sim query dtm :
  (BaseIRModel.qd_similarities cosine_similarity query dtm
     ≫= λ qd_sims, Ok (BaseIRModel.rank_documents qd_sims))
  = evaluate_sim query dtm.
Proof.
  unfold evaluate_sim, BaseIRModel.qd_similarities, BaseIRModel.rank_documents.
  rewrite sim_loop_mapM. by destruct (mapM _ _).
Qed.


End ranking.

(** ** Document matrix *)

Section dict_lookup.
Context {V : Type}.
Implicit Types (d : pydict V) (k : Z) (v : V).

Lemma dict_get_None d k : dict_get d k = None ↔ k ∉ d.*1.
Proof.
  induction d as [|[k' v'] d IH]; simpl.
  - split; [intros _; apply not_elem_of_nil|done].
  - rewrite not_elem_of_cons. destruct (decide (k' = k)) as [->|Hne].
    + split; [done|]. by intros [? _].
    + rewrite IH. split; [by split|]. by intros [_ ?].
Qed.

Lemma dict_get_elem d k v : dict_get d k = Some v → (k, v) ∈ d.
Proof.
  induction d as [|[k' v'] d IH]; simpl; [done|].
  destruct (decide (k' = k)) as [->|Hk].
  - intros [= ->]. left.
  - intros Hget. right. by apply IH.
Qed.

Lemma dict_elem_get d k v : NoDup d.*1 → (k, v) ∈ d → dict_get d k = Some v.
Proof.
  induction d as [|[k' v'] d IH]; simpl; intros Hnd Hin.
  - by apply elem_of_nil in Hin.
  - apply NoDup_cons in Hnd as [Hk' Hnd].
    apply elem_of_cons in Hin as [[= -> ->]|Hin].
    + by rewrite decide_True.
    + rewrite decide_False; [by apply IH|].
      intros ->. apply Hk'. apply list_elem_of_fmap. by exists (k, v).
Qed.

Lemma dict_get_set_eq d k v : dict_get (dict_set d k v) k = Some v.
Proof.
  induction d as [|[k' v'] d IH]; simpl.
  - by rewrite decide_True.
  - destruct (decide (k' = k)) as [->|Hk]; simpl; [by rewrite decide_True|].
    by rewrite decide_False.
Qed.

Lemma dict_get_set_ne d k k' v :
  k ≠ k' → dict_get (dict_set d k v) k' = dict_get d k'.
Proof.
  intros Hne. induction d as [|[k0 v0] d IH]; simpl.
  - by rewrite decide_False.
  - destruct (decide (k0 = k)) as [->|Hk]; simpl.
    + by rewrite !decide_False.
    + by rewrite IH.
Qed.

Lemma dict_set_keys d k v :
  (dict_set d k v).*1 = if decide (k ∈ d.*1) then d.*1 else d.*1 ++ [k].
Proof.
  induction d as [|[k' v'] d IH]; simpl; [done|].
  destruct (decide (k' = k)) as [->|Hk]; csimpl.
  - rewrite decide_True; [done|left].
  - rewrite IH. destruct (decide (k ∈ d.*1)) as [Hin|Hnin].
    + rewrite decide_True; [done|by right].
    + rewrite decide_False; [done|]. rewrite not_elem_of_cons. by split.
Qed.

Lemma dict_set_NoDup d k v : NoDup d.*1 → NoDup (dict_set d k v).*1.
Proof.
  intros Hnd. rewrite dict_set_keys. case_decide as Hk; [done|].
  apply NoDup_app. split_and!; [done| |apply NoDup_singleton].
  intros x Hx ->%list_elem_of_singleton. done.
Qed.
End dict_lookup.

Section document_matrix.
Local Open Scope Z_scope.
Implicit Types (inv_index : inverted_index_t) (docs : gset Z)
  (temp : pydict (list Z)) (termsets : occurrence_map) (ts : termset)
  (post_list : list (Z * Z)) (d id tf : Z).

Lemma temp_add_get_eq temp id tf :
  dict_get (temp_add temp id tf) id
  = Some (default [] (dict_get temp id) ++ [tf]).
Proof.
  unfold temp_add. destruct (dict_get temp id); by rewrite dict_get_set_eq.
Qed.

Lemma temp_add_get_ne temp id tf d :
  id ≠ d → dict_get (temp_add temp id tf) d = dict_get temp d.
Proof.
  intros Hne. unfold temp_add.
  destruct (dict_get temp id); by rewrite dict_get_set_ne.
Qed.

Lemma temp_add_NoDup temp id tf : NoDup temp.*1 → NoDup (temp_add temp id tf).*1.
Proof.
  intros Hnd. unfold temp_add. destruct (dict_get temp id); by apply dict_set_NoDup.
Qed.

Lemma scan_postings_cons docs id tf post_list temp :
  scan_postings docs ((id, tf) :: post_list) temp
  = scan_postings docs post_list
      (if decide (id ∈ docs) then temp_add temp id tf else temp).
Proof. reflexivity. Qed.

Lemma scan_postings_NoDup docs post_list temp :
  NoDup temp.*1 → NoDup (scan_postings docs post_list temp).*1.
Proof.
  revert temp. induction post_list as [|[id tf] rest IH]; intros temp Hnd; [done|].
  rewrite scan_postings_cons. apply IH. case_decide; [|done].
  by apply temp_add_NoDup.
Qed.

(** Scanning a posting list appends to [temp[d]] the frequency paired with
    [d], when [d] is one of the termset's documents. *)
Lemma scan_postings_get docs post_list temp d :
  NoDup post_list.*1 →
  dict_get (scan_postings docs post_list temp) d
  = match (if decide (d ∈ docs) then dict_get post_list d else None) with
    | Some tf => Some (default [] (dict_get temp d) ++ [tf])
    | None => dict_get temp d
    end.
Proof.
  revert temp. induction post_list as [|[id tf] rest IH]; intros temp Hnd.
  - simpl. by case_decide.
  - rewrite scan_postings_cons. csimpl in Hnd.
    apply NoDup_cons in Hnd as [Hid Hnd]. rewrite IH by done. simpl.
    destruct (decide (id = d)) as [->|Hne].
    + apply dict_get_None in Hid. rewrite Hid.
      destruct (decide (d ∈ docs)); [|done].
      by rewrite temp_add_get_eq.
    + destruct (decide (id ∈ docs)); [|done].
      by rewrite temp_add_get_ne.
Qed.

Lemma term_freq_indexed inv_index t e d :
  inv_index !! t = Some e → term_freq inv_index t d = dict_get (posting_list e) d.
Proof. intros He. unfold term_freq. by rewrite He. Qed.

(** After the loop over the terms, [temp[d]] lists the frequency in [d] of
    each term, in order, for each document [d] of the termset; other ids
    are untouched. *)
Lemma collect_tfs_spec inv_index docs (terms : list term) temp :
  (∀ t, t ∈ terms →
     ∃ e, inv_index !! t = Some e ∧ NoDup (posting_list e).*1) →
  NoDup temp.*1 →
  ∃ temp',
    collect_tfs inv_index docs terms temp = Ok temp'
    ∧ NoDup temp'.*1
    ∧ (∀ d, d ∉ docs → dict_get temp' d = dict_get temp d)
    ∧ (∀ d tfs,
         d ∈ docs →
         Forall2 (λ t tf, term_freq inv_index t d = Some tf) terms tfs →
         dict_get temp' d
         = match tfs with
           | [] => dict_get temp d
           | _ => Some (default [] (dict_get temp d) ++ tfs)
           end).
Proof.
  revert temp. induction terms as [|t rest IH]; intros temp Hidx Hnd.
  - exists temp. split_and!; [done..|]. by intros d tfs _ ->%Forall2_nil_inv_l.
  - destruct (Hidx t) as (e & He & Hpl); [left|].
    destruct (IH (scan_postings docs (posting_list e) temp))
      as (temp' & Hrun & Hnd' & Hout & Hin).
    { intros t' Ht'. apply Hidx. by right. }
    { by apply scan_postings_NoDup. }
    exists temp'. split_and!.
    + simpl. by rewrite He.
    + done.
    + intros d Hd. rewrite Hout by done.
      rewrite scan_postings_get by done. by rewrite decide_False.
    + intros d tfs Hd Htfs.
      apply Forall2_cons_inv_l in Htfs as (tf & tfs' & Htf & Htfs' & ->).
      rewrite (term_freq_indexed _ _ e) in Htf by done.
      rewrite (Hin d tfs') by done.
      rewrite scan_postings_get by done. rewrite decide_True by done.
      rewrite Htf. simpl. destruct tfs'; [done|]. by rewrite <-app_assoc.
Qed.

Lemma foldr_min_shift (x a : Z) (l : list Z) :
  foldr Z.min (Z.min x a) l = Z.min a (foldr Z.min x l).
Proof. induction l as [|b l IH]; simpl; [lia|]. rewrite IH. lia. Qed.

Lemma fold_left_min_foldr (x : Z) (l : list Z) :
  fold_left Z.min l x = foldr Z.min x l.
Proof.
  revert x. induction l as [|a l IH]; intros x; simpl; [done|].
  by rewrite IH, foldr_min_shift.
Qed.

Lemma foldr_min_lower (b x : Z) (l : list Z) :
  b ≤ x → Forall (λ y, b ≤ y) l → b ≤ foldr Z.min x l.
Proof. intros Hx. induction 1; simpl; lia. Qed.

Lemma np_setitem_in_range (row : list R) (k : Z) (v : R) :
  0 ≤ k < len row → np_setitem row k v = Ok (<[Z.to_nat k := v]> row).
Proof. intros Hk. unfold np_setitem. by rewrite decide_True. Qed.

(** Writing the row: each key of [temp] within [1..N] sets its own cell. *)
Lemma assign_row_spec (items : pydict (list Z)) (row : list R) :
  NoDup items.*1 →
  Forall (λ it, 1 ≤ it.1 ≤ len row ∧ it.2 ≠ [] ∧ Forall (λ tf, 1 ≤ tf) it.2)
         items →
  ∃ row',
    assign_row items row = Ok row'
    ∧ length row' = length row
    ∧ ∀ d, 1 ≤ d ≤ len row →
        row' !! Z.to_nat (d - 1)
        = match dict_get items d with
          | Some (x :: rest) => Some (tsf_weight (foldr Z.min x rest))
          | _ => row !! Z.to_nat (d - 1)
          end.
Proof.
  revert row. induction items as [|[id tfs] items IH]; intros row Hnd Hok.
  - exists row. by split_and!.
  - csimpl in Hnd. apply NoDup_cons in Hnd as [Hid Hnd].
    apply Forall_cons in Hok as [(Hrange & Hne & Hpos) Hok]. simpl in *.
    destruct tfs as [|x rest]; [done|].
    apply Forall_cons in Hpos as [Hx Hrest].
    set (m := foldr Z.min x rest).
    assert (1 ≤ m) as Hm by (by apply foldr_min_lower).
    set (row1 := <[Z.to_nat (id - 1) := tsf_weight m]> row).
    assert (len row1 = len row) as Hlen1.
    { unfold len, row1. by rewrite length_insert. }
    destruct (IH row1) as (row' & Hrun & Hlen & Hcells); [done| |].
    { rewrite Hlen1. done. }
    exists row'. split_and!.
    + simpl. rewrite fold_left_min_foldr. simpl. fold m.
      rewrite py_log2_pos by (apply IZR_lt; lia). simpl.
      rewrite np_setitem_in_range by lia. simpl. exact Hrun.
    + rewrite Hlen. unfold row1. by rewrite length_insert.
    + intros d Hd. rewrite Hcells by lia.
      destruct (decide (id = d)) as [->|Hne'].
      * apply dict_get_None in Hid. rewrite Hid. unfold row1.
        apply list_lookup_insert_eq. unfold len in Hd. lia.
      * destruct (dict_get items d) as [[|y ys]|]; try done;
          unfold row1; apply list_lookup_insert_ne; lia.
Qed.

Lemma entry_ok_spec (N : Z) (e : index_entry) :
  entry_ok N e = true →
  NoDup (posting_list e).*1
  ∧ ∀ id tf, (id, tf) ∈ posting_list e → 1 ≤ id ≤ N ∧ 1 ≤ tf.
Proof.
  unfold entry_ok. intros [Hall Hnd%bool_decide_eq_true]%andb_prop.
  split; [done|]. intros id tf Hin%list_elem_of_In.
  rewrite forallb_forall in Hall. specialize (Hall _ Hin). simpl in Hall.
  apply andb_prop in Hall as [H1%bool_decide_eq_true H2%bool_decide_eq_true].
  done.
Qed.

Lemma posting_docs_get inv_index t e d :
  inv_index !! t = Some e →
  d ∈ posting_docs inv_index t →
  ∃ tf, dict_get (posting_list e) d = Some tf.
Proof.
  intros He. unfold posting_docs. rewrite He, elem_of_list_to_set.
  intros Hd. destruct (dict_get (posting_list e) d) as [tf|] eqn:E; [by eexists|].
  by apply dict_get_None in E.
Qed.

Lemma elem_of_cooccurrence inv_index ts d t :
  d ∈ cooccurrence inv_index ts → t ∈ ts → d ∈ posting_docs inv_index t.
Proof.
  destruct ts as [|t0 rest]; simpl; [by intros ?%not_elem_of_empty|].
  induction rest as [|t1 rest IH]; simpl.
  - by intros Hd ->%list_elem_of_singleton.
  - intros [Hd1 Hd]%elem_of_intersection Ht.
    apply elem_of_cons in Ht as [->|Ht]; [by apply IH; [|left]|].
    apply elem_of_cons in Ht as [->|Ht]; [done|].
    apply IH; [done|by right].
Qed.

(** In a document of the termset every term has a frequency, and it is
    positive. *)
Lemma docs_term_freqs inv_index (N : Z) ts d :
  (∀ t, t ∈ ts → ∃ e, inv_index !! t = Some e ∧ entry_ok N e = true) →
  (∀ t, t ∈ ts → d ∈ posting_docs inv_index t) →
  ∃ tfs, Forall2 (λ t tf, term_freq inv_index t d = Some tf) ts tfs
         ∧ Forall (λ tf, 1 ≤ tf) tfs
         ∧ (ts ≠ [] → 1 ≤ d ≤ N).
Proof.
  intros Hidx Hd. induction ts as [|t rest IH].
  - exists []. by split_and!.
  - destruct IH as (tfs & Htfs & Hpos & _).
    { intros t' Ht'. apply Hidx. by right. }
    { intros t' Ht'. apply Hd. by right. }
    destruct (Hidx t) as (e & He & [Hnd Hrange]%entry_ok_spec); [left|].
    destruct (posting_docs_get inv_index t e d He) as [tf Htf]; [apply Hd; left|].
    destruct (Hrange d tf) as [Hdr Htfr]; [by apply dict_get_elem|].
    exists (tf :: tfs). split_and!; [|by constructor|done].
    constructor; [|done]. by rewrite (term_freq_indexed _ _ e).
Qed.

(** One row of the matrix. *)
Lemma tsf_row_spec inv_index (N : Z) ts docs :
  0 ≤ N →
  ts ≠ [] →
  (∀ t, t ∈ ts → ∃ e, inv_index !! t = Some e ∧ entry_ok N e = true) →
  docs = cooccurrence inv_index ts →
  ∃ row,
    tsf_row inv_index (Z.to_nat N) (ts, docs) = Ok row
    ∧ length row = Z.to_nat N
    ∧ ∀ d, 1 ≤ d ≤ N →
        (d ∈ docs →
           ∃ m, min_term_freq inv_index ts d = Some m
                ∧ row !! Z.to_nat (d - 1) = Some (tsf_weight m))
        ∧ (d ∉ docs → row !! Z.to_nat (d - 1) = Some 0%R).
Proof.
  intros HN Hne Hidx Hdocs.
  assert (∀ d, d ∈ docs →
            ∃ tfs, Forall2 (λ t tf, term_freq inv_index t d = Some tf) ts tfs
                   ∧ Forall (λ tf, 1 ≤ tf) tfs ∧ 1 ≤ d ≤ N ∧ tfs ≠ []) as Hfreq.
  { intros d Hd. rewrite Hdocs in Hd.
    destruct (docs_term_freqs inv_index N ts d Hidx) as (tfs & Htfs & Hpos & Hr).
    { intros t Ht. by eapply elem_of_cooccurrence. }
    assert (tfs ≠ []) as Hne0.
    { intros ->. apply Forall2_nil_inv_r in Htfs. done. }
    exists tfs. split_and!; try done; by apply Hr. }
  destruct (collect_tfs_spec inv_index docs ts []) as (temp & Hrun & Hnd & Hout & Hin).
  { intros t Ht. destruct (Hidx t Ht) as (e & He & [Hpl _]%entry_ok_spec). eauto. }
  { constructor. }
  assert (len (replicate (Z.to_nat N) 0%R) = N) as Hlen.
  { unfold len. rewrite length_replicate. lia. }
  assert (∀ d tfs, dict_get temp d = Some tfs →
            d ∈ docs ∧ Forall2 (λ t tf, term_freq inv_index t d = Some tf) ts tfs
            ∧ Forall (λ tf, 1 ≤ tf) tfs ∧ 1 ≤ d ≤ N ∧ tfs ≠ []) as Htemp.
  { intros d tfs Hget. destruct (decide (d ∈ docs)) as [Hd|Hd].
    - destruct (Hfreq d Hd) as (tfs0 & Htfs0 & Hpos & Hr & Hne0).
      rewrite (Hin d tfs0 Hd Htfs0) in Hget.
      destruct tfs0 as [|x rest]; [done|]. simpl in Hget.
      injection Hget as <-. done.
    - rewrite Hout in Hget by done. done. }
  destruct (assign_row_spec temp (replicate (Z.to_nat N) 0%R))
    as (row & Hassign & Hrowlen & Hcells); [done| |].
  { apply Forall_forall. intros [id tfs] Hit. simpl.
    apply (dict_elem_get _ _ _ Hnd) in Hit.
    destruct (Htemp id tfs Hit) as (_ & _ & Hpos & Hr & Hne0).
    rewrite Hlen. done. }
  exists row. split_and!.
  - unfold tsf_row. simpl. rewrite Hrun. simpl. exact Hassign.
  - by rewrite Hrowlen, length_replicate.
  - intros d Hd. rewrite Hcells by (by rewrite Hlen). split.
    + intros Hdocs'. destruct (Hfreq d Hdocs') as (tfs & Htfs & _ & _ & Hne0).
      rewrite (Hin d tfs Hdocs' Htfs).
      destruct tfs as [|x rest]; [done|]. simpl.
      exists (foldr Z.min x rest). split; [|done].
      unfold min_term_freq. apply mapM_Some_2 in Htfs. by rewrite Htfs.
    + intros Hdocs'. rewrite (Hout d Hdocs'). simpl.
      apply lookup_replicate_2. lia.
Qed.

Lemma consistent_cons termsets inv_index (N : Z) ts docs :
  consistent ((ts, docs) :: termsets) inv_index N = true →
  ts ≠ []
  ∧ (∀ t, t ∈ ts → ∃ e, inv_index !! t = Some e ∧ entry_ok N e = true)
  ∧ docs = cooccurrence inv_index ts
  ∧ consistent termsets inv_index N = true.
Proof.
  unfold consistent. simpl.
  intros [[[Hne%bool_decide_eq_true Hts]%andb_prop
            Hdocs%bool_decide_eq_true]%andb_prop Hrest]%andb_prop.
  split_and!; [done| |done|done].
  intros t Ht%list_elem_of_In. rewrite forallb_forall in Hts.
  specialize (Hts t Ht). simpl in Hts.
  destruct (inv_index !! t) as [e|]; [by exists e|done].
Qed.

Lemma tsf_rows_spec termsets inv_index (N : Z) :
  0 ≤ N →
  consistent termsets inv_index N = true →
  ∃ rows,
    mapM (tsf_row inv_index (Z.to_nat N)) termsets = Ok rows
    ∧ Forall2 (λ (entry : termset * gset Z) (row : list R),
         length row = Z.to_nat N
         ∧ ∀ d, 1 ≤ d ≤ N →
             (d ∈ entry.2 →
                ∃ m, min_term_freq inv_index entry.1 d = Some m
                     ∧ row !! Z.to_nat (d - 1) = Some (tsf_weight m))
             ∧ (d ∉ entry.2 → row !! Z.to_nat (d - 1) = Some 0%R))
        termsets rows.
Proof.
  intros HN. induction termsets as [|[ts docs] rest IH]; intros Hok.
  - exists []. split; [done|constructor].
  - apply consistent_cons in Hok as (Hne & Hidx & Hdocs & Hrest).
    destruct (IH Hrest) as (rows & Hrows & Hspec).
    destruct (tsf_row_spec inv_index N ts docs HN Hne Hidx Hdocs)
      as (row & Hrow & Hlen & Hcells).
    exists (row :: rows). split.
    + by rewrite mapM_cons_result, Hrow, Hrows.
    + by constructor.
Qed.

(** C2: for an occurrence map consistent with the index and a collection
    of [N] documents, the matrix has one row per termset and [N] columns;
    the cell of termset [S] and document [d] is
    [round(1 + log2(min over t in S of tf(t, d)), 3)] when [d] is a
    document of [S], and exactly 0 otherwise. *)
Theorem calculate_tsf_cells termsets inv_index (N : Z) :
  0 ≤ N →
  consistent termsets inv_index N = true →
  ∃ M,
    calculate_tsf termsets inv_index N = Ok M
    ∧ length (mrows M) = length termsets
    ∧ ncols M = Z.to_nat N
    ∧ Forall (λ row, length row = Z.to_nat N) (mrows M)
    ∧ ∀ i ts docs d,
        termsets !! i = Some (ts, docs) → 1 ≤ d ≤ N →
        (d ∈ docs →
           ∃ m, min_term_freq inv_index ts d = Some m
                ∧ cell M i d = Some (tsf_weight m))
        ∧ (d ∉ docs → cell M i d = Some 0%R).
Proof.
  intros HN Hok.
  destruct (tsf_rows_spec termsets inv_index N HN Hok) as (rows & Hrows & Hspec).
  exists {| ncols := Z.to_nat N; mrows := rows |}. split_and!.
  - unfold calculate_tsf. rewrite decide_False by lia. by rewrite Hrows.
  - simpl. symmetry. by eapply Forall2_length.
  - done.
  - simpl. apply Forall_forall. intros row [i Hi]%list_elem_of_lookup.
    by destruct (Forall2_lookup_r _ _ _ _ _ Hspec Hi) as (entry & _ & Hlen & _).
  - intros i ts docs d Hi Hd. unfold cell. simpl.
    destruct (Forall2_lookup_l _ _ _ _ _ Hspec Hi) as (row & Hrow & _ & Hcells).
    rewrite Hrow. simpl. apply (Hcells d Hd).
Qed.

Example calculate_tsf_unknown_term :
  calculate_tsf [(["z"], {[1]})] ∅ 1 = Raise KeyError.
Proof. reflexivity. Qed.

Lemma calculate_tsf_cells_witness :
  let inv_index : inverted_index_t :=
    {[ "a" := IndexEntry [(1, 2); (2, 1)];
       "b" := IndexEntry [(2, 3); (3, 1)] ]} in
  let termsets : occurrence_map :=
    [(["a"], {[1; 2]}); (["b"], {[2; 3]}); (["a"; "b"], {[2]})] in
  ∃ M,
    calculate_tsf termsets inv_index 3 = Ok M
    ∧ length (mrows M) = length termsets
    ∧ ncols M = Z.to_nat 3
    ∧ Forall (λ row, length row = Z.to_nat 3) (mrows M)
    ∧ ∀ i ts docs d,
        termsets !! i = Some (ts, docs) → 1 ≤ d ≤ 3 →
        (d ∈ docs →
           ∃ m, min_term_freq inv_index ts d = Some m
                ∧ cell M i d = Some (tsf_weight m))
        ∧ (d ∉ docs → cell M i d = Some 0%R).
Proof.
  intros inv_index termsets.
  assert (0 ≤ 3) as HN by lia.
  assert (consistent termsets inv_index 3 = true) as Hok by (by vm_compute).
  exact (calculate_tsf_cells termsets inv_index 3 HN Hok).
Defined.
End document_matrix.

(** ** Term frequencies of a token list *)

Section term_frequency.
Implicit Types (tf : list (term * Z)) (t : term) (terms : list term).

Lemma odict_get_set_eq {K V} `{EqDecision K} (d : list (K * V)) k v :
  odict_get (odict_set d k v) k = Some v.
Proof.
  induction d as [|[k' v'] d IH]; simpl.
  - by rewrite decide_True.
  - destruct (decide (k' = k)) as [->|Hk]; simpl; [by rewrite decide_True|].
    by rewrite decide_False.
Qed.

Lemma odict_get_set_ne {K V} `{EqDecision K} (d : list (K * V)) k k' v :
  k ≠ k' → odict_get (odict_set d k v) k' = odict_get d k'.
Proof.
  intros Hne. induction d as [|[k0 v0] d IH]; simpl.
  - by rewrite decide_False.
  - destruct (decide (k0 = k)) as [->|Hk]; simpl.
    + by rewrite !decide_False.
    + by rewrite IH.
Qed.

Lemma odict_get_None {K V} `{EqDecision K} (d : list (K * V)) k :
  odict_get d k = None ↔ k ∉ d.*1.
Proof.
  induction d as [|[k' v'] d IH]; simpl.
  - split; [intros _; apply not_elem_of_nil|done].
  - rewrite not_elem_of_cons. destruct (decide (k' = k)) as [->|Hne].
    + split; [done|]. by intros [? _].
    + rewrite IH. split; [by split|]. by intros [_ ?].
Qed.

Lemma odict_set_keys {K V} `{EqDecision K} (d : list (K * V)) k v :
  (odict_set d k v).*1 = if decide (k ∈ d.*1) then d.*1 else d.*1 ++ [k].
Proof.
  induction d as [|[k' v'] d IH]; simpl; [done|].
  destruct (decide (k' = k)) as [->|Hk]; csimpl.
  - rewrite decide_True; [done|left].
  - rewrite IH. destruct (decide (k ∈ d.*1)) as [Hin|Hnin].
    + rewrite decide_True; [done|by right].
    + rewrite decide_False; [done|]. rewrite not_elem_of_cons. by split.
Qed.

Lemma odict_set_sum (d : list (term * Z)) k v :
  foldr Z.add 0%Z (odict_set d k v).*2
  = (foldr Z.add 0%Z d.*2 - default 0%Z (odict_get d k) + v)%Z.
Proof.
  induction d as [|[k' v'] d IH]; simpl; [lia|].
  destruct (decide (k' = k)) as [->|Hk]; csimpl; [lia|]. rewrite IH. lia.
Qed.

Lemma filter_eq_notin terms t : t ∉ terms → filter (λ x, x = t) terms = [].
Proof.
  induction terms as [|x terms IH]; [done|].
  rewrite not_elem_of_cons. intros [Hne Hnin].
  rewrite filter_cons, decide_False by done. by apply IH.
Qed.

Lemma calculate_tf_snoc terms t :
  calculate_tf (terms ++ [t]) = tf_step (calculate_tf terms) t.
Proof. unfold calculate_tf. by rewrite fold_left_app. Qed.

Lemma tf_step_get_eq tf t :
  odict_get (tf_step tf t) t = Some (default 0 (odict_get tf t) + 1)%Z.
Proof.
  unfold tf_step. destruct (odict_get tf t); by rewrite odict_get_set_eq.
Qed.

Lemma tf_step_get_ne tf t t' :
  t ≠ t' → odict_get (tf_step tf t) t' = odict_get tf t'.
Proof.
  intros Hne. unfold tf_step. destruct (odict_get tf t); by rewrite odict_get_set_ne.
Qed.

Lemma tf_step_keys tf t :
  (tf_step tf t).*1 = if decide (t ∈ tf.*1) then tf.*1 else tf.*1 ++ [t].
Proof. unfold tf_step. destruct (odict_get tf t); apply odict_set_keys. Qed.

Lemma tf_step_sum tf t :
  foldr Z.add 0%Z (tf_step tf t).*2 = (foldr Z.add 0%Z tf.*2 + 1)%Z.
Proof.
  unfold tf_step. destruct (odict_get tf t) as [c|] eqn:E;
    rewrite odict_set_sum, E; simpl; lia.
Qed.

(** [calculate_tf] maps each term to its number of occurrences, and has no
    entry for a term that does not occur. *)
Theorem calculate_tf_counts terms t :
  odict_get (calculate_tf terms) t
  = if decide (t ∈ terms)
    then Some (Z.of_nat (length (filter (λ x, x = t) terms)))
    else None.
Proof.
  induction terms as [|x terms IH] using rev_ind.
  - rewrite decide_False; [done|apply not_elem_of_nil].
  - rewrite calculate_tf_snoc, filter_app, length_app, filter_cons, filter_nil.
    destruct (decide (x = t)) as [->|Hne].
    + rewrite (decide_True (P := t ∈ terms ++ [t]))
        by (apply elem_of_app; right; left).
      rewrite tf_step_get_eq, IH.
      simpl. f_equal. destruct (decide (t ∈ terms)) as [Hin|Hnin]; simpl; [lia|].
      by rewrite filter_eq_notin.
    + rewrite tf_step_get_ne, IH by done. simpl. rewrite Nat.add_0_r.
      destruct (decide (t ∈ terms)) as [Hin|Hnin].
      * rewrite (decide_True (P := t ∈ terms ++ [x])); [done|].
        apply elem_of_app. by left.
      * rewrite (decide_False (P := t ∈ terms ++ [x])); [done|].
        rewrite elem_of_app, list_elem_of_singleton. intros [?|?]; done.
Qed.

(** The keys of [calculate_tf] are the distinct terms in the order of their
    first occurrence, and the counts add up to the number of tokens. *)
Theorem calculate_tf_keys terms :
  (calculate_tf terms).*1 = reverse (remove_dups (reverse terms))
  ∧ NoDup (calculate_tf terms).*1
  ∧ foldr Z.add 0%Z (calculate_tf terms).*2 = Z.of_nat (length terms).
Proof.
  assert ((calculate_tf terms).*1 = reverse (remove_dups (reverse terms))) as Hkeys.
  { induction terms as [|x terms IH] using rev_ind; [done|].
    rewrite calculate_tf_snoc, tf_step_keys, IH, reverse_snoc. simpl.
    destruct (decide_rel elem_of x (reverse terms)) as [Hin|Hnin].
    - rewrite decide_True; [done|].
      by rewrite elem_of_reverse, elem_of_remove_dups.
    - rewrite decide_False; [by rewrite reverse_cons|].
      by rewrite elem_of_reverse, elem_of_remove_dups. }
  split_and!; [done| |].
  - rewrite Hkeys, reverse_Permutation. apply NoDup_remove_dups.
  - clear Hkeys. induction terms as [|x terms IH] using rev_ind; [done|].
    rewrite calculate_tf_snoc, tf_step_sum, length_app, IH. simpl. lia.
Qed.

Example calculate_tf_example :
  calculate_tf ["b"; "a"; "b"; "c"; "b"] = [("b", 3); ("a", 1); ("c", 1)]%Z.
Proof. reflexivity. Qed.
End term_frequency.

(** ** Monotonicity of rounding and of the logarithm *)

Section monotone.
Local Open Scope R_scope.

Lemma Int_part_mono (x y : R) : x <= y → (Int_part x ≤ Int_part y)%Z.
Proof.
  intros Hxy.
  destruct (base_Int_part x) as [Hx _]. destruct (base_Int_part y) as [_ Hy].
  assert (IZR (Int_part x) < IZR (Int_part y + 1)) as Hlt
    by (rewrite plus_IZR; lra).
  apply lt_IZR in Hlt. lia.
Qed.

Lemma rint_bounds (x : R) : (Int_part x ≤ rint x ≤ Int_part x + 1)%Z.
Proof.
  unfold rint. repeat destruct (Rlt_dec _ _); try destruct (Z.even _); lia.
Qed.

Lemma rint_mono (x y : R) : x <= y → (rint x ≤ rint y)%Z.
Proof.
  intros Hxy. pose proof (Int_part_mono x y Hxy) as Hf.
  destruct (decide (Int_part x = Int_part y)) as [Heq|Hne].
  - unfold rint. rewrite Heq.
    repeat destruct (Rlt_dec _ _); try destruct (Z.even _); try lia; lra.
  - pose proof (rint_bounds x). pose proof (rint_bounds y). lia.
Qed.

Lemma np_round3_mono (x y : R) : x <= y → np_round3 x <= np_round3 y.
Proof.
  intros Hxy. unfold np_round3.
  assert (rint (x * 1000) ≤ rint (y * 1000))%Z as Hr by (apply rint_mono; lra).
  apply IZR_le in Hr. lra.
Qed.

Lemma log2_mono (x y : R) : 0 < x → x <= y → log2 x <= log2 y.
Proof.
  intros Hx Hxy. unfold log2. pose proof ln_2_pos.
  assert (ln x <= ln y) as Hln.
  { destruct Hxy as [Hlt| ->]; [|lra]. left. by apply ln_increasing. }
  apply Rmult_le_compat_r; [|done]. left. by apply Rinv_0_lt_compat.
Qed.

Lemma log2_1 : log2 1 = 0.
Proof. unfold log2. rewrite ln_1. lra. Qed.

Lemma log2_2 : log2 2 = 1.
Proof. unfold log2. pose proof ln_2_pos. by field_simplify; [|lra]. Qed.
End monotone.

(** ** Further properties of the query vector *)

Section query_vector_more.
Local Open Scope R_scope.
Implicit Types (termsets : occurrence_map) (N : Z) (docs : gset Z).

Lemma calculate_ts_idf_ok termsets N :
  (0 ≤ N)%Z →
  Forall (λ entry : termset * gset Z, entry.2 ≠ ∅) termsets →
  calculate_ts_idf termsets N = Ok ((λ entry, idf_weight N entry.2) <$> termsets).
Proof.
  intros HN Hts. unfold calculate_ts_idf.
  induction Hts as [|[ts docs] rest Hne _ IH]; [done|].
  rewrite mapM_cons_result. simpl in *.
  rewrite ts_idf_entry_ok by done. simpl. by rewrite IH.
Qed.

Lemma ts_idf_entry_empty N : ts_idf_entry N ∅ = Raise ZeroDivisionError.
Proof. reflexivity. Qed.

(** An empty document set anywhere in the occurrence map makes
    [calculate_ts_idf] raise [ZeroDivisionError]. *)
Theorem calculate_ts_idf_empty termsets N :
  (0 ≤ N)%Z →
  Exists (λ entry : termset * gset Z, entry.2 = ∅) termsets →
  calculate_ts_idf termsets N = Raise ZeroDivisionError.
Proof.
  intros HN. unfold calculate_ts_idf.
  induction termsets as [|[ts docs] rest IH]; intros Hex.
  - by apply Exists_nil in Hex.
  - rewrite mapM_cons_result. simpl.
    destruct (decide (docs = ∅)) as [->|Hne]; [done|].
    rewrite ts_idf_entry_ok by done. simpl.
    apply Exists_cons in Hex as [Hhd|Htl]; [done|]. by rewrite IH.
Qed.

Lemma calculate_ts_idf_empty_witness :
  calculate_ts_idf [(["a"], {[1%Z]}); (["b"], ∅)] 5 = Raise ZeroDivisionError.
Proof.
  apply (calculate_ts_idf_empty [(["a"], {[1%Z]}); (["b"], ∅)] 5).
  - lia.
  - apply Exists_cons_tl, Exists_cons_hd. reflexivity.
Defined.

Lemma idf_weight_antitone N docs1 docs2 :
  (0 ≤ N)%Z → docs1 ≠ ∅ → (size docs1 ≤ size docs2)%nat →
  idf_weight N docs2 <= idf_weight N docs1.
Proof.
  intros HN Hne Hsize. unfold idf_weight.
  pose proof (set_len_nonempty docs1 Hne) as H1.
  assert (0 < set_len docs2)%Z as H2 by (unfold set_len in *; lia).
  assert (set_len docs1 ≤ set_len docs2)%Z as Hle by (unfold set_len; lia).
  apply IZR_lt in H1, H2. apply IZR_le in Hle, HN.
  assert (IZR N / IZR (set_len docs2) <= IZR N / IZR (set_len docs1)) as Hq.
  { unfold Rdiv. apply Rmult_le_compat_l; [done|].
    by apply Rinv_le_contravar. }
  assert (0 <= IZR N / IZR (set_len docs2)) as Hq0.
  { apply Rmult_le_pos; [done|]. left. by apply Rinv_0_lt_compat. }
  apply np_round3_mono, log2_mono; lra.
Qed.

Lemma idf_weight_ge_1 N docs :
  docs ≠ ∅ → (set_len docs ≤ N)%Z → 1 <= idf_weight N docs.
Proof.
  intros Hne Hle. unfold idf_weight.
  pose proof (set_len_nonempty docs Hne) as H1.
  apply IZR_lt in H1. apply IZR_le in Hle.
  assert (1 <= IZR N / IZR (set_len docs)) as Hq.
  { pose proof (Rinv_0_lt_compat _ H1) as Hinv.
    assert (IZR (set_len docs) * / IZR (set_len docs) = 1) as Hone
      by (apply Rinv_r; lra).
    unfold Rdiv. nra. }
  apply (Rle_trans _ (np_round3 1)); [rewrite np_round3_1; lra|].
  apply np_round3_mono.
  apply (Rle_trans _ (log2 2)); [rewrite log2_2; lra|].
  apply log2_mono; lra.
Qed.

(** The idf weights decrease with the document frequency: a termset that
    occurs in no more documents than another one weighs at least as much;
    and a termset occurring in at most [N] documents weighs at least 1. *)
Theorem calculate_ts_idf_rarer_heavier termsets N :
  (0 ≤ N)%Z →
  Forall (λ entry : termset * gset Z, entry.2 ≠ ∅) termsets →
  ∃ q,
    calculate_ts_idf termsets N = Ok q
    ∧ length q = length termsets
    ∧ (∀ i j e1 e2 w1 w2,
         termsets !! i = Some e1 → termsets !! j = Some e2 →
         q !! i = Some w1 → q !! j = Some w2 →
         (size e1.2 ≤ size e2.2)%nat → w2 <= w1)
    ∧ (∀ i e w,
         termsets !! i = Some e → q !! i = Some w →
         (set_len e.2 ≤ N)%Z → 1 <= w).
Proof.
  intros HN Hts. eexists. split; [by apply calculate_ts_idf_ok|].
  split_and!.
  - by rewrite length_fmap.
  - intros i j e1 e2 w1 w2 Hi Hj. rewrite !list_lookup_fmap, Hi, Hj.
    intros [= <-] [= <-] Hsize. apply idf_weight_antitone; [done| |done].
    rewrite Forall_forall in Hts. apply Hts. by eapply list_elem_of_lookup_2.
  - intros i e w Hi. rewrite list_lookup_fmap, Hi. intros [= <-] Hle.
    apply idf_weight_ge_1; [|done].
    rewrite Forall_forall in Hts. apply Hts. by eapply list_elem_of_lookup_2.
Qed.

Lemma calculate_ts_idf_rarer_heavier_witness :
  let termsets : occurrence_map := [(["a"], {[1; 2]}%Z); (["a"; "b"], {[2%Z]})] in
  ∃ q,
    calculate_ts_idf termsets 2 = Ok q
    ∧ length q = length termsets
    ∧ (∀ i j e1 e2 w1 w2,
         termsets !! i = Some e1 → termsets !! j = Some e2 →
         q !! i = Some w1 → q !! j = Some w2 →
         (size e1.2 ≤ size e2.2)%nat → w2 <= w1)
    ∧ (∀ i e w,
         termsets !! i = Some e → q !! i = Some w →
         (set_len e.2 ≤ 2)%Z → 1 <= w).
Proof.
  intros termsets.
  assert (0 ≤ 2)%Z as HN by lia.
  assert (Forall (λ entry : termset * gset Z, entry.2 ≠ ∅) termsets) as Hts.
  { repeat constructor; simpl; by apply (bool_decide_unpack _). }
  exact (calculate_ts_idf_rarer_heavier termsets 2 HN Hts).
Defined.
End query_vector_more.

(** ** Further properties of the cosine similarity *)

Section cosine_more.
Local Open Scope R_scope.
Implicit Types (u v : list R).

(** Sum of squares and sum of products, as [norm] and [dot] compute them. *)
Lemma dot_comm_sum u v :
  foldr Rplus 0 (zip_with Rmult u v) = foldr Rplus 0 (zip_with Rmult v u).
Proof.
  revert v. induction u as [|x u IH]; intros [|y v]; simpl; try done.
  rewrite IH. lra.
Qed.

Lemma dot_nonneg u v :
  Forall (λ x, 0 <= x) u → Forall (λ x, 0 <= x) v →
  0 <= foldr Rplus 0 (zip_with Rmult u v).
Proof.
  intros Hu. revert v. induction Hu as [|x u Hx Hu IH]; intros v Hv; [simpl; lra|].
  destruct Hv as [|y v Hy Hv]; simpl; [lra|].
  specialize (IH v Hv). nra.
Qed.

Lemma all_zero_false u : all_zero u = false ↔ ¬ Forall (λ x, x = 0) u.
Proof.
  rewrite <-all_zero_Forall. destruct (all_zero u); split; done.
Qed.

(** On vectors without negative components the similarity is not
    negative. *)
Lemma cosine_nonneg u v :
  length u = length v →
  Forall (λ x, 0 <= x) u → Forall (λ x, 0 <= x) v →
  ∃ s, cosine_similarity u v = Ok s ∧ 0 <= s.
Proof.
  intros Hlen Hu0 Hv0. unfold cosine_similarity, dot. rewrite decide_True by done.
  destruct (all_zero u) eqn:Eu; simpl.
  { exists 0. split; [done|lra]. }
  destruct (all_zero v) eqn:Ev; simpl.
  { exists 0. split; [done|lra]. }
  apply all_zero_false in Eu, Ev.
  pose proof (norm_pos u Eu) as Hu. pose proof (norm_pos v Ev) as Hv.
  assert (0 < norm u * norm v) as Hden by (by apply Rmult_lt_0_compat).
  pose proof (dot_nonneg u v Hu0 Hv0) as Hd.
  eexists. split; [done|]. apply Rmult_le_pos; [done|].
  by apply Rlt_le, Rinv_0_lt_compat.
Qed.

(** The similarity does not depend on the order of its arguments. *)
Theorem cosine_similarity_sym u v :
  cosine_similarity u v = cosine_similarity v u.
Proof.
  unfold cosine_similarity, dot. rewrite (orb_comm (all_zero u)).
  destruct (all_zero v || all_zero u); [done|].
  destruct (decide (length u = length v)) as [Hlen|Hlen].
  - rewrite decide_True by done. simpl.
    by rewrite dot_comm_sum, (Rmult_comm (norm u)).
  - by rewrite decide_False.
Qed.

Lemma cosine_mismatch_cases u v :
  length u ≠ length v →
  cosine_similarity u v
  = if all_zero u || all_zero v then Ok 0 else Raise ValueError.
Proof.
  intros Hlen. unfold cosine_similarity, dot.
  destruct (all_zero u || all_zero v); [done|]. by rewrite decide_False.
Qed.

(** Vectors of different lengths are rejected with [ValueError] only when
    neither is all-zero; with an all-zero argument the result is 0 and the
    lengths are never compared. *)
Theorem cosine_similarity_mismatch u v :
  length u ≠ length v →
  cosine_similarity u v
  = if all_zero u || all_zero v then Ok 0 else Raise ValueError.
Proof. apply cosine_mismatch_cases. Qed.

Lemma cosine_similarity_mismatch_witness :
  cosine_similarity [1] [1; 2]
  = (if all_zero [1] || all_zero [1; 2] then Ok 0 else Raise ValueError)
  ∧ cosine_similarity [0] [1; 2]
    = (if all_zero [0] || all_zero [1; 2] then Ok 0 else Raise ValueError).
Proof.
  split.
  - apply (cosine_similarity_mismatch [1] [1; 2]). simpl. lia.
  - apply (cosine_similarity_mismatch [0] [1; 2]). simpl. lia.
Defined.
End cosine_more.

(** ** Further properties of the ranking *)

Section ranking_more.
Local Open Scope R_scope.
Implicit Types (x y : Z * R) (l items : list (Z * R)) (s : R).



Lemma insert_desc_head x l : Forall (sim_desc x) l → insert_desc x l = x :: l.
Proof.
  destruct 1 as [|y l Hy _]; simpl; [done|].
  unfold sim_desc in Hy. by destruct (Rle_dec y.2 x.2).
Qed.

Lemma sorted_desc_fixed items :
  StronglySorted sim_desc items → sorted_desc items = items.
Proof.
  induction 1 as [|x l Hs IH Hx]; simpl; [done|].
  rewrite IH. by apply insert_desc_head.
Qed.

Lemma dict_get_perm {V} (d d' : pydict V) (k : Z) :
  NoDup d.*1 → d ≡ₚ d' → dict_get d k = dict_get d' k.
Proof.
  intros Hnd Hperm.
  assert (NoDup d'.*1) as Hnd' by (by rewrite <-Hperm).
  destruct (dict_get d k) as [v|] eqn:E.
  - symmetry. apply dict_elem_get; [done|].
    rewrite <-Hperm. by apply dict_get_elem.
  - symmetry. apply dict_get_None. rewrite <-Hperm. by apply dict_get_None.
Qed.



(** Ranking a ranking changes nothing. *)
Theorem rank_documents_idempotent (qd_sims : pydict R) :
  NoDup qd_sims.*1 →
  BaseIRModel.rank_documents (BaseIRModel.rank_documents qd_sims)
  = BaseIRModel.rank_documents qd_sims.
Proof.
  intros Hnd. unfold BaseIRModel.rank_documents.
  assert (NoDup (sorted_desc qd_sims).*1) as Hnd'
    by (by rewrite (sorted_desc_perm qd_sims)).
  rewrite (dict_of_items_NoDup (sorted_desc qd_sims)) by done.
  rewrite (sorted_desc_fixed (sorted_desc qd_sims)) by apply sorted_desc_sorted.
  by apply dict_of_items_NoDup.
Qed.

Lemma rank_documents_idempotent_witness :
  let qd_sims : pydict R := [(1%Z, 0); (2%Z, 1); (3%Z, 0)] in
  BaseIRModel.rank_documents (BaseIRModel.rank_documents qd_sims)
  = BaseIRModel.rank_documents qd_sims.
Proof.
  intros qd_sims.
  assert (NoDup qd_sims.*1) as Hnd by (by apply (bool_decide_unpack _)).
  exact (rank_documents_idempotent qd_sims Hnd).
Defined.
End ranking_more.

(** ** Further properties of [evaluate_sim] *)

Section evaluate_sim_more.
Local Open Scope R_scope.
Implicit Types (query : list R) (dtm : matrix).



(** The ranking is the stable sort of the per-column similarities. *)
Lemma evaluate_sim_items query dtm :
  length query = length (mrows dtm) →
  ∃ items,
    evaluate_sim query dtm = Ok (sorted_desc items)
    ∧ items.*1 = (λ j, Z.of_nat j + 1)%Z <$> seq 0 (ncols dtm)
    ∧ Forall (λ p, cosine_similarity query (column dtm (Z.to_nat (p.1 - 1)))
                   = Ok p.2) items.
Proof.
  intros Hlen.
  destruct (column_sims query dtm (seq 0 (ncols dtm)) Hlen)
    as (items & Hm & Hk & Hs).
  assert (NoDup items.*1) as Hnd.
  { rewrite Hk. apply NoDup_fmap_2; [|apply NoDup_seq]. intros i j. lia. }
  exists items. split_and!; [|done|done].
  unfold evaluate_sim. rewrite sim_loop_mapM. unfold transpose.
  pose proof (enumerate_fmap_seq (column dtm) 0 (ncols dtm)) as Hcols.
  change (Z.of_nat 0 + 1)%Z with 1%Z in Hcols. rewrite Hcols, Hm. simpl.
  rewrite fold_dict_set_fresh by done. simpl.
  rewrite dict_of_items_NoDup; [done|]. by rewrite (sorted_desc_perm items).
Qed.



Lemma mapM_raises {A B} (f : A → result B) (e : exn) (l : list A) :
  Forall (λ x, f x = Raise e ∨ ∃ y, f x = Ok y) l →
  Exists (λ x, f x = Raise e) l →
  mapM f l = Raise e.
Proof.
  induction 1 as [|x l [Hx|[y Hx]] Hl IH]; intros Hex.
  - by apply Exists_nil in Hex.
  - by rewrite mapM_cons_result, Hx.
  - rewrite mapM_cons_result, Hx. simpl.
    apply Exists_cons in Hex as [Hhd|Htl]; [congruence|].
    by rewrite IH.
Qed.

(** A query vector whose length is not the number of matrix rows makes
    [evaluate_sim] raise [ValueError], provided the query and at least one
    document column are not all-zero. *)
Theorem evaluate_sim_dimension_mismatch query dtm (j : nat) :
  length query ≠ length (mrows dtm) →
  all_zero query = false →
  (j < ncols dtm)%nat →
  all_zero (column dtm j) = false →
  evaluate_sim query dtm = Raise ValueError.
Proof.
  intros Hlen Hq Hj Hcol. unfold evaluate_sim. rewrite sim_loop_mapM.
  rewrite (mapM_raises _ ValueError); [done| |].
  - apply Forall_forall. intros [id c] Hc. simpl.
    assert (length query ≠ length c) as Hlen'.
    { unfold transpose in Hc.
      assert (c ∈ (enumerate 1 (column dtm <$> seq 0 (ncols dtm))).*2) as Hc2
        by (apply list_elem_of_fmap; by exists (id, c)).
      pose proof (enumerate_fmap_seq (column dtm) 0 (ncols dtm)) as Hcols.
      change (Z.of_nat 0 + 1)%Z with 1%Z in Hcols. rewrite Hcols in Hc2.
      rewrite <-list_fmap_compose in Hc2.
      apply list_elem_of_fmap in Hc2 as (k & -> & _). simpl.
      unfold column. by rewrite length_fmap. }
    rewrite (cosine_mismatch_cases query c Hlen'), Hq. simpl.
    destruct (all_zero c); simpl; eauto.
  - apply Exists_exists. exists (Z.of_nat j + 1, column dtm j)%Z. split.
    + unfold transpose.
      pose proof (enumerate_fmap_seq (column dtm) 0 (ncols dtm)) as Hcols.
      change (Z.of_nat 0 + 1)%Z with 1%Z in Hcols. rewrite Hcols.
      apply list_elem_of_fmap. exists j. split; [done|]. apply elem_of_seq. lia.
    + simpl. assert (length query ≠ length (column dtm j)) as Hlen'.
      { unfold column. by rewrite length_fmap. }
      by rewrite (cosine_mismatch_cases _ _ Hlen'), Hq, Hcol.
Qed.

Lemma evaluate_sim_dimension_mismatch_witness :
  evaluate_sim [1] {| ncols := 2; mrows := [[0; 1]; [0; 2]] |} = Raise ValueError.
Proof.
  apply (evaluate_sim_dimension_mismatch [1]
           {| ncols := 2; mrows := [[0; 1]; [0; 2]] |} 1).
  - simpl. lia.
  - simpl. rewrite bool_decide_eq_false_2; [done|lra].
  - simpl. lia.
  - simpl. rewrite bool_decide_eq_false_2; [done|lra].
Defined.
End evaluate_sim_more.

(** ** Document vectors *)

Section doc_vectors.
Local Open Scope R_scope.
Implicit Types (tf_ij : matrix) (idf w : list R) (termsets : occurrence_map).

(** A matrix is rectangular, as every numpy array is. *)
Lemma fmap_nth_seq {A B} (f : A → B) (d : A) (l : list A) :
  (λ n, f (nth n l d)) <$> seq 0 (length l) = f <$> l.
Proof.
  induction l as [|x l IH]; [done|]. csimpl. f_equal.
  rewrite <-IH, <-fmap_S_seq, <-list_fmap_compose. done.
Qed.

Lemma fmap_nth2_seq {A B C} (h : A → B → C) (d1 : A) (d2 : B)
    (l1 : list A) (l2 : list B) :
  length l1 = length l2 →
  (λ j, h (nth j l1 d1) (nth j l2 d2)) <$> seq 0 (length l1) = zip_with h l1 l2.
Proof.
  revert l2. induction l1 as [|x l1 IH]; intros [|y l2] Hlen; try done.
  csimpl. f_equal. injection Hlen as Hlen.
  rewrite <-(IH l2 Hlen), <-fmap_S_seq, <-list_fmap_compose. done.
Qed.

Lemma broadcast_len_same (m : nat) : broadcast_len m m = Ok m.
Proof. unfold broadcast_len. by rewrite decide_True. Qed.

Lemma pick_lt (m j : nat) : (j < m)%nat → pick m j = j.
Proof. intros Hj. unfold pick. case_decide; lia. Qed.

(** With one weight per row, [scale_rows] multiplies row [i] by weight [i]
    and rounds. *)
Lemma scale_rows_matching tf_ij w :
  length w = length (mrows tf_ij) →
  Forall (λ row, length row = ncols tf_ij) (mrows tf_ij) →
  scale_rows tf_ij w
  = Ok {| ncols := ncols tf_ij;
          mrows := zip_with (λ row wi, (λ x, np_round3 (x * wi)) <$> row)
                            (mrows tf_ij) w |}.
Proof.
  intros Hlen Hwf. unfold scale_rows. rewrite Hlen, broadcast_len_same. simpl.
  do 2 f_equal.
  rewrite <-(fmap_nth2_seq _ [] 0) by done.
  apply list_fmap_ext. intros i j Hj. simpl.
  apply lookup_seq in Hj as [-> Hlt]. simpl. rewrite !pick_lt by lia.
  destruct (nth_lookup_or_length (mrows tf_ij) i []) as [Hrow|]; [|lia].
  assert (length (nth i (mrows tf_ij) []) = ncols tf_ij) as <-.
  { rewrite Forall_forall in Hwf. apply Hwf. by eapply list_elem_of_lookup_2. }
  apply (fmap_nth_seq (λ x, np_round3 (x * nth i w 0))).
Qed.


End doc_vectors.

Section doc_vectors_weights.
Local Open Scope R_scope.
Implicit Types (tf_ij : matrix) (idf w : list R) (termsets : occurrence_map)
  (nwk : gmap string R).

Lemma np_mul_vec_matching (a b : list R) :
  length a = length b → np_mul_vec a b = Ok (zip_with Rmult a b).
Proof.
  intros Hlen. unfold np_mul_vec. rewrite <-Hlen, broadcast_len_same. simpl.
  f_equal. rewrite <-(fmap_nth2_seq Rmult 0 0) by done.
  apply list_fmap_ext. intros i j Hj. apply lookup_seq in Hj as [-> Hlt].
  simpl. by rewrite !pick_lt by lia.
Qed.

Lemma tnw_product_unweighted nwk (ts : termset) :
  (∀ t, t ∈ ts → nwk !! t = None) → tnw_product nwk ts = 1.
Proof.
  induction ts as [|t ts IH]; intros Hts; [done|].
  rewrite tnw_product_cons. unfold tnw_step. rewrite (Hts t) by left.
  rewrite IH; [lra|]. intros t' Ht'. apply Hts. by right.
Qed.

Lemma zip_with_mult_ones (a : list R) (n : nat) :
  length a = n → zip_with Rmult a (replicate n 1) = a.
Proof.
  revert n. induction a as [|x a IH]; intros [|n] Hlen; try done.
  simpl. injection Hlen as Hlen. rewrite (IH n Hlen). f_equal. lra.
Qed.

(** Without weights for the terms of the termsets, the weighted document
    vectors are the unweighted ones: the extended weighting degenerates to
    idf-only scaling. *)
Theorem calculate_doc_vectors_unweighted tf_ij idf termsets nwk (z : Z) :
  length idf = length termsets →
  Forall (λ entry : termset * gset Z, ∀ t, t ∈ entry.1 → nwk !! t = None)
         termsets →
  calculate_doc_vectors tf_ij idf (TnwArray (calculate_tnw termsets nwk))
  = calculate_doc_vectors tf_ij idf (TnwInt z).
Proof.
  intros Hlen Hnone. simpl.
  assert (calculate_tnw termsets nwk = replicate (length termsets) 1) as ->.
  { unfold calculate_tnw. clear Hlen.
    induction Hnone as [|[ts docs] rest Hts _ IH]; [done|]. csimpl.
    rewrite IH. f_equal. rewrite tnw_product_unweighted by done.
    apply np_round3_1. }
  rewrite np_mul_vec_matching by (by rewrite length_replicate). simpl.
  by rewrite zip_with_mult_ones.
Qed.

Lemma calculate_doc_vectors_unweighted_witness :
  let tf_ij := {| ncols := 2; mrows := [[1; 0]; [0; 2]] |} in
  let termsets : occurrence_map := [(["a"], {[1%Z]}); (["b"], {[2%Z]})] in
  calculate_doc_vectors tf_ij [1; 3]
    (TnwArray (calculate_tnw termsets {[ "c" := 5 ]}))
  = calculate_doc_vectors tf_ij [1; 3] (TnwInt 1).
Proof.
  intros tf_ij termsets.
  assert (length [1; 3] = length termsets) as Hlen by reflexivity.
  assert (Forall (λ entry : termset * gset Z,
                    ∀ t, t ∈ entry.1 → ({[ "c" := 5 ]} : gmap string R) !! t = None)
                 termsets) as Hnone.
  { repeat constructor; simpl; intros t ->%list_elem_of_singleton; reflexivity. }
  exact (calculate_doc_vectors_unweighted tf_ij [1; 3] termsets _ 1 Hlen Hnone).
Defined.

(** A term of weight 0 switches its termsets off: the rows of the document
    vectors of every termset that contains it are all-zero. *)
Theorem calculate_doc_vectors_gating tf_ij idf termsets nwk :
  length idf = length (mrows tf_ij) →
  length termsets = length (mrows tf_ij) →
  Forall (λ row, length row = ncols tf_ij) (mrows tf_ij) →
  ∃ D,
    calculate_doc_vectors tf_ij idf (TnwArray (calculate_tnw termsets nwk)) = Ok D
    ∧ ncols D = ncols tf_ij
    ∧ length (mrows D) = length (mrows tf_ij)
    ∧ ∀ i ts docs t,
        termsets !! i = Some (ts, docs) → t ∈ ts → nwk !! t = Some 0 →
        mrows D !! i = Some (replicate (ncols tf_ij) 0).
Proof.
  intros Hidf Hts Hwf. simpl.
  assert (length (calculate_tnw termsets nwk) = length termsets) as Htnw
    by (unfold calculate_tnw; by rewrite length_fmap).
  rewrite np_mul_vec_matching by lia. simpl.
  rewrite scale_rows_matching; [|rewrite length_zip_with; lia|done].
  eexists. split; [done|]. simpl. split_and!; [done|rewrite !length_zip_with; lia|].
  intros i ts docs t Hi Ht Hw.
  destruct (lookup_lt_is_Some_2 (mrows tf_ij) i) as [row Hrow].
  { rewrite <-Hts. by eapply lookup_lt_Some. }
  destruct (lookup_lt_is_Some_2 idf i) as [wi Hwi].
  { rewrite Hidf. by eapply lookup_lt_Some. }
  assert (calculate_tnw termsets nwk !! i = Some 0) as Hz.
  { unfold calculate_tnw. rewrite list_lookup_fmap, Hi. simpl.
    by rewrite (tnw_product_zero nwk ts t), np_round3_0. }
  assert (zip_with Rmult idf (calculate_tnw termsets nwk) !! i = Some (wi * 0))
    as Hprod by (apply lookup_zip_with_Some; by exists wi, 0).
  assert (zip_with (λ row wi, (λ x, np_round3 (x * wi)) <$> row) (mrows tf_ij)
            (zip_with Rmult idf (calculate_tnw termsets nwk)) !! i
          = Some ((λ x, np_round3 (x * (wi * 0))) <$> row)) as ->
    by (apply lookup_zip_with_Some; by exists row, (wi * 0)).
  f_equal. rewrite Forall_forall in Hwf.
  rewrite <-(Hwf row) by (by eapply list_elem_of_lookup_2).
  clear. induction row as [|x row IH]; [done|]. csimpl. rewrite IH. f_equal.
  rewrite <-np_round3_0 at 2. f_equal. lra.
Qed.
End doc_vectors_weights.

(** ** Support of the termset-frequency matrix *)

Section matrix_support.
Local Open Scope Z_scope.
Implicit Types (inv_index : inverted_index_t) (termsets : occurrence_map)
  (ts : termset) (docs : gset Z) (d N : Z).

Lemma tsf_weight_ge_1 (m : Z) : 1 ≤ m → (1 <= tsf_weight m)%R.
Proof.
  intros Hm. unfold tsf_weight.
  apply (Rle_trans _ (np_round3 1)); [rewrite np_round3_1; lra|].
  apply np_round3_mono. apply IZR_le in Hm.
  pose proof (log2_nonneg (IZR m) Hm). lra.
Qed.

Lemma min_term_freq_pos inv_index N ts d (m : Z) :
  (∀ t, t ∈ ts → ∃ e, inv_index !! t = Some e ∧ entry_ok N e = true) →
  min_term_freq inv_index ts d = Some m → 1 ≤ m.
Proof.
  intros Hidx. unfold min_term_freq.
  destruct (mapM _ ts) as [tfs|] eqn:E; [|done]. simpl.
  apply mapM_Some_1 in E.
  assert (Forall (λ tf, 1 ≤ tf) tfs) as Hpos.
  { clear m. induction E as [|t tf ts tfs Htf _ IH]; [constructor|].
    constructor.
    - destruct (Hidx t) as (e & He & [_ Hrange]%entry_ok_spec); [left|].
      rewrite (term_freq_indexed _ _ e) in Htf by done.
      apply dict_get_elem in Htf. by destruct (Hrange d tf Htf).
    - apply IH. intros t' Ht'. apply Hidx. by right. }
  destruct Hpos as [|x rest Hx Hrest]; [done|].
  intros [= <-]. by apply foldr_min_lower.
Qed.

(** Every row of the matrix is 0 outside the termset's documents and at
    least 1 on them. *)
Lemma tsf_rows_support termsets inv_index N :
  0 ≤ N →
  consistent termsets inv_index N = true →
  ∃ rows,
    mapM (tsf_row inv_index (Z.to_nat N)) termsets = Ok rows
    ∧ Forall2 (λ (entry : termset * gset Z) (row : list R),
         length row = Z.to_nat N
         ∧ ∀ d, 1 ≤ d ≤ N →
             ∃ x, row !! Z.to_nat (d - 1) = Some x
                  ∧ (d ∈ entry.2 → (1 <= x)%R)
                  ∧ (d ∉ entry.2 → x = 0%R))
        termsets rows.
Proof.
  intros HN. induction termsets as [|[ts docs] rest IH]; intros Hok.
  - exists []. split; [done|constructor].
  - apply consistent_cons in Hok as (Hne & Hidx & Hdocs & Hrest).
    destruct (IH Hrest) as (rows & Hrows & Hspec).
    destruct (tsf_row_spec inv_index N ts docs HN Hne Hidx Hdocs)
      as (row & Hrow & Hlen & Hcells).
    exists (row :: rows). split.
    + by rewrite mapM_cons_result, Hrow, Hrows.
    + constructor; [|done]. split; [done|]. intros d Hd. simpl.
      destruct (Hcells d Hd) as [Hin Hout].
      destruct (decide (d ∈ docs)) as [Hdd|Hdd].
      * destruct (Hin Hdd) as (m & Hm & Hx). eexists. split; [exact Hx|].
        split; [|done]. intros _. apply tsf_weight_ge_1.
        by eapply min_term_freq_pos.
      * eexists. split; [by apply Hout|]. split; [done|]. done.
Qed.

(** Under the data-model invariants, a cell of the termset-frequency matrix
    is at least 1 on the documents of its termset and exactly 0 elsewhere:
    the non-zero cells of a row are exactly the termset's documents. *)
Theorem calculate_tsf_support termsets inv_index N :
  0 ≤ N →
  consistent termsets inv_index N = true →
  ∃ M,
    calculate_tsf termsets inv_index N = Ok M
    ∧ ∀ i ts docs d,
        termsets !! i = Some (ts, docs) → 1 ≤ d ≤ N →
        ∃ x, cell M i d = Some x
             ∧ (d ∈ docs → (1 <= x)%R)
             ∧ (d ∉ docs → x = 0%R).
Proof.
  intros HN Hok.
  destruct (tsf_rows_support termsets inv_index N HN Hok) as (rows & Hrows & Hspec).
  exists {| ncols := Z.to_nat N; mrows := rows |}. split.
  - unfold calculate_tsf. rewrite decide_False by lia. by rewrite Hrows.
  - intros i ts docs d Hi Hd. unfold cell. simpl.
    destruct (Forall2_lookup_l _ _ _ _ _ Hspec Hi) as (row & Hrow & _ & Hcells).
    rewrite Hrow. simpl. apply (Hcells d Hd).
Qed.

Lemma calculate_tsf_support_witness :
  let inv_index : inverted_index_t :=
    {[ "a" := IndexEntry [(1, 2); (2, 1)];
       "b" := IndexEntry [(2, 3); (3, 1)] ]} in
  let termsets : occurrence_map :=
    [(["a"], {[1; 2]}); (["b"], {[2; 3]}); (["a"; "b"], {[2]})] in
  ∃ M,
    calculate_tsf termsets inv_index 3 = Ok M
    ∧ ∀ i ts docs d,
        termsets !! i = Some (ts, docs) → 1 ≤ d ≤ 3 →
        ∃ x, cell M i d = Some x
             ∧ (d ∈ docs → (1 <= x)%R)
             ∧ (d ∉ docs → x = 0%R).
Proof.
  intros inv_index termsets.
  assert (0 ≤ 3) as HN by lia.
  assert (consistent termsets inv_index 3 = true) as Hok by (by vm_compute).
  exact (calculate_tsf_support termsets inv_index 3 HN Hok).
Defined.
End matrix_support.

(** ** Failure of the matrix construction on an unknown term *)

Section matrix_errors.
Local Open Scope Z_scope.
Implicit Types (inv_index : inverted_index_t) (termsets : occurrence_map)
  (ts : termset) (docs : gset Z) (N : Z).

Lemma collect_tfs_unindexed inv_index docs (terms : list term) temp t :
  t ∈ terms → inv_index !! t = None →
  collect_tfs inv_index docs terms temp = Raise KeyError.
Proof.
  intros Ht Hnone. revert temp.
  induction terms as [|t' rest IH]; intros temp; [by apply elem_of_nil in Ht|].
  simpl. destruct (inv_index !! t') as [e|] eqn:E; [|done].
  apply IH. apply elem_of_cons in Ht as [->|Ht]; [congruence|done].
Qed.

Lemma mapM_app_raise {A B} (f : A → result B) (pre post : list A) (x : A)
    (rows : list B) (e : exn) :
  mapM f pre = Ok rows → f x = Raise e → mapM f (pre ++ x :: post) = Raise e.
Proof.
  revert rows. induction pre as [|y pre IH]; intros rows Hpre Hx.
  - by rewrite app_nil_l, mapM_cons_result, Hx.
  - rewrite mapM_cons_result in Hpre.
    rewrite <-app_comm_cons, mapM_cons_result.
    destruct (f y) as [b|]; simpl in *; [|done].
    destruct (mapM f pre) as [rows'|] eqn:E; simpl in *; [|done].
    by rewrite (IH rows').
Qed.

(** A termset with a term that is missing from the inverted index makes
    [calculate_tsf] raise [KeyError], whatever the documents of the termset
    and the termsets after it are. *)
Theorem calculate_tsf_unknown_term_fails pre post ts docs inv_index N t :
  0 ≤ N →
  consistent pre inv_index N = true →
  t ∈ ts → inv_index !! t = None →
  calculate_tsf (pre ++ (ts, docs) :: post) inv_index N = Raise KeyError.
Proof.
  intros HN Hpre Ht Hnone. unfold calculate_tsf. rewrite decide_False by lia.
  destruct (tsf_rows_spec pre inv_index N HN Hpre) as (rows & Hrows & _).
  rewrite (mapM_app_raise _ pre post (ts, docs) rows KeyError); [done|done|].
  unfold tsf_row. simpl. by rewrite (collect_tfs_unindexed _ _ _ _ t).
Qed.

Lemma calculate_tsf_unknown_term_fails_witness :
  calculate_tsf ([(["a"], {[1]})] ++ (["a"; "z"], {[1]}) :: [(["a"], ∅)])
                {[ "a" := IndexEntry [(1, 2)] ]} 1
  = Raise KeyError.
Proof.
  apply (calculate_tsf_unknown_term_fails
           [(["a"], {[1]})] [(["a"], ∅)] ["a"; "z"] {[1]}
           {[ "a" := IndexEntry [(1, 2)] ]} 1 "z").
  - lia.
  - by vm_compute.
  - by apply (bool_decide_unpack _).
  - reflexivity.
Defined.
End matrix_errors.

(** ** The pipeline from termsets to ranking *)

Section pipeline.
Local Open Scope R_scope.
Implicit Types (inv_index : inverted_index_t) (termsets : occurrence_map)
  (rows : list (list R)) (q : list R).

Lemma nth_scaled (row : list R) (wi : R) (j : nat) :
  nth j ((λ x, np_round3 (x * wi)) <$> row) 0 = np_round3 (nth j row 0 * wi).
Proof.
  revert j. induction row as [|x row IH]; intros [|j]; csimpl;
    rewrite ?Rmult_0_l, ?np_round3_0; try done.
Qed.

Lemma column_scaled (n : nat) rows q (j : nat) :
  column {| ncols := n;
            mrows := zip_with (λ row wi, (λ x, np_round3 (x * wi)) <$> row) rows q |} j
  = zip_with (λ row wi, np_round3 (nth j row 0 * wi)) rows q.
Proof.
  unfold column. simpl. revert q.
  induction rows as [|row rows IH]; intros [|wi q]; csimpl; try done.
  by rewrite nth_scaled, IH.
Qed.

(** The column of document [d] in the scaled matrix: non-negative, and
    all-zero when [d] belongs to no termset. *)
Lemma scaled_column_facts termsets rows (N d : Z) :
  (0 ≤ N)%Z → (1 ≤ d ≤ N)%Z →
  Forall (λ entry : termset * gset Z, entry.2 ≠ ∅) termsets →
  Forall2 (λ (entry : termset * gset Z) (row : list R),
       length row = Z.to_nat N
       ∧ ∀ d, (1 ≤ d ≤ N)%Z →
           ∃ x, row !! Z.to_nat (d - 1) = Some x
                ∧ (d ∈ entry.2 → 1 <= x)
                ∧ (d ∉ entry.2 → x = 0))
      termsets rows →
  let c := zip_with (λ row wi, np_round3 (nth (Z.to_nat (d - 1)) row 0 * wi))
                    rows ((λ entry, idf_weight N entry.2) <$> termsets) in
  length c = length termsets
  ∧ Forall (λ x, 0 <= x) c
  ∧ ((∀ entry, entry ∈ termsets → d ∉ entry.2) → Forall (λ x, x = 0) c).
Proof.
  intros HN Hd Hne Hspec. simpl.
  induction Hspec as [|[ts docs] row termsets rows [Hlen Hcells] Hrest IH];
    [by split_and!|].
  apply Forall_cons in Hne as [Hne1 Hne]. destruct (IH Hne) as (IH1 & IH2 & IH3).
  destruct (Hcells d Hd) as (x & Hx & Hin & Hout). simpl in *.
  rewrite (nth_lookup_Some _ _ 0 _ Hx). csimpl. split_and!.
  - simpl. f_equal. exact IH1.
  - constructor; [|exact IH2]. apply np_round3_nonneg.
    pose proof (idf_weight_nonneg N docs HN Hne1).
    destruct (decide (d ∈ docs)) as [Hdd|Hdd].
    + specialize (Hin Hdd). nra.
    + rewrite (Hout Hdd). lra.
  - intros Hnone. constructor.
    + rewrite Hout by (apply (Hnone (ts, docs)); left).
      by rewrite Rmult_0_l, np_round3_0.
    + apply IH3. intros entry Hentry. apply Hnone. by right.
Qed.

(** Under the data-model invariants the whole pipeline runs without error:
    query vector, termset-frequency matrix, document vectors and ranking.
    The ranking covers the documents [1..N], no similarity is negative,
    and a document that belongs to no termset has similarity 0. *)
Theorem pipeline_ranks_all_documents termsets inv_index (N : Z) :
  (0 ≤ N)%Z →
  consistent termsets inv_index N = true →
  Forall (λ entry : termset * gset Z, entry.2 ≠ ∅) termsets →
  ∃ q M D ranking,
    calculate_ts_idf termsets N = Ok q
    ∧ calculate_tsf termsets inv_index N = Ok M
    ∧ calculate_doc_vectors M q (TnwInt 1) = Ok D
    ∧ evaluate_sim q D = Ok ranking
    ∧ ranking.*1 ≡ₚ seqZ 1 N
    ∧ Forall (λ p, 0 <= p.2) ranking
    ∧ ∀ d, (1 ≤ d ≤ N)%Z →
        (∀ entry, entry ∈ termsets → d ∉ entry.2) →
        dict_get ranking d = Some 0.
Proof.
  intros HN Hok Hne.
  set (q := (λ entry : termset * gset Z, idf_weight N entry.2) <$> termsets).
  destruct (tsf_rows_support termsets inv_index N HN Hok) as (rows & Hrows & Hspec).
  set (M := {| ncols := Z.to_nat N; mrows := rows |}).
  set (D := {| ncols := Z.to_nat N;
               mrows := zip_with (λ row wi, (λ x, np_round3 (x * wi)) <$> row)
                                 rows q |}).
  assert (length rows = length termsets) as Hlen_rows
    by (symmetry; by eapply Forall2_length).
  assert (length q = length termsets) as Hlen_q by (unfold q; by rewrite length_fmap).
  assert (calculate_doc_vectors M q (TnwInt 1) = Ok D) as HD.
  { simpl. rewrite scale_rows_matching; [done|simpl; lia|]. simpl.
    apply Forall_forall. intros row [i Hi]%list_elem_of_lookup.
    by destruct (Forall2_lookup_r _ _ _ _ _ Hspec Hi) as (entry & _ & Hlen & _). }
  destruct (evaluate_sim_items q D) as (items & Hrun & Hkeys & Hcos).
  { simpl. rewrite length_zip_with. lia. }
  assert (items.*1 = seqZ 1 N) as Hseq.
  { rewrite Hkeys. unfold seqZ. simpl. apply list_fmap_ext. intros; lia. }
  assert (NoDup items.*1) as Hnd by (rewrite Hseq; apply NoDup_seqZ).
  assert (∀ p, p ∈ items →
            (1 ≤ p.1 ≤ N)%Z
            ∧ cosine_similarity q
                (zip_with (λ row wi, np_round3 (nth (Z.to_nat (p.1 - 1)) row 0 * wi))
                          rows q) = Ok p.2) as Hitem.
  { intros p Hp. split.
    - assert (p.1 ∈ seqZ 1 N) as Hin
        by (rewrite <-Hseq; by apply list_elem_of_fmap_2).
      apply elem_of_seqZ in Hin. lia.
    - rewrite Forall_forall in Hcos. rewrite <-(Hcos p Hp).
      unfold D. by rewrite column_scaled. }
  exists q, M, D, (sorted_desc items). split_and!.
  - by apply calculate_ts_idf_ok.
  - unfold calculate_tsf. rewrite decide_False by lia. by rewrite Hrows.
  - done.
  - done.
  - by rewrite (sorted_desc_perm items), Hseq.
  - rewrite (sorted_desc_perm items). apply Forall_forall. intros p Hp.
    destruct (Hitem p Hp) as [Hrange Hsim].
    destruct (scaled_column_facts termsets rows N p.1 HN Hrange Hne Hspec)
      as (Hclen & Hcpos & _). fold q in Hclen, Hcpos.
    destruct (cosine_nonneg q _ (eq_trans Hlen_q (eq_sym Hclen)))
      as (s & Hs & Hpos); [|done|].
    + unfold q. apply Forall_fmap, Forall_forall. intros entry Hentry. simpl.
      apply idf_weight_nonneg; [done|].
      rewrite Forall_forall in Hne. by apply Hne.
    + rewrite Hsim in Hs. by injection Hs as <-.
  - intros d Hd Hnone.
    assert (d ∈ items.*1) as Hin by (rewrite Hseq; apply elem_of_seqZ; lia).
    apply list_elem_of_fmap in Hin as ([d' s] & -> & Hp). simpl in *.
    destruct (Hitem _ Hp) as [_ Hsim]. simpl in Hsim.
    destruct (scaled_column_facts termsets rows N d' HN Hd Hne Hspec)
      as (_ & _ & Hzero). fold q in Hzero.
    specialize (Hzero Hnone). apply all_zero_Forall in Hzero.
    unfold cosine_similarity in Hsim. rewrite Hzero, orb_true_r in Hsim.
    injection Hsim as <-.
    rewrite <-(dict_get_perm items) by (done || (symmetry; apply sorted_desc_perm)).
    by apply dict_elem_get.
Qed.
End pipeline.

Section pipeline_witnesses.
Local Open Scope R_scope.

Lemma calculate_doc_vectors_gating_witness :
  let tf_ij := {| ncols := 2; mrows := [[1; 0]; [0; 2]] |} in
  let termsets : occurrence_map := [(["a"], {[1%Z]}); (["b"], {[2%Z]})] in
  let nwk : gmap string R := {[ "a" := 0; "b" := 2 ]} in
  ∃ D,
    calculate_doc_vectors tf_ij [1; 3] (TnwArray (calculate_tnw termsets nwk)) = Ok D
    ∧ ncols D = ncols tf_ij
    ∧ length (mrows D) = length (mrows tf_ij)
    ∧ ∀ i ts docs t,
        termsets !! i = Some (ts, docs) → t ∈ ts → nwk !! t = Some 0 →
        mrows D !! i = Some (replicate (ncols tf_ij) 0).
Proof.
  intros tf_ij termsets nwk.
  assert (length [1; 3] = length (mrows tf_ij)) as Hidf by reflexivity.
  assert (length termsets = length (mrows tf_ij)) as Hts by reflexivity.
  assert (Forall (λ row, length row = ncols tf_ij) (mrows tf_ij)) as Hwf
    by (repeat constructor).
  exact (calculate_doc_vectors_gating tf_ij [1; 3] termsets nwk Hidf Hts Hwf).
Defined.

Lemma pipeline_ranks_all_documents_witness :
  let inv_index : inverted_index_t :=
    {[ "a" := IndexEntry [(1, 2); (2, 1)]%Z;
       "b" := IndexEntry [(2, 3); (3, 1)]%Z ]} in
  let termsets : occurrence_map :=
    [(["a"], {[1; 2]}%Z); (["b"], {[2; 3]}%Z); (["a"; "b"], {[2%Z]})] in
  ∃ q M D ranking,
    calculate_ts_idf termsets 4 = Ok q
    ∧ calculate_tsf termsets inv_index 4 = Ok M
    ∧ calculate_doc_vectors M q (TnwInt 1) = Ok D
    ∧ evaluate_sim q D = Ok ranking
    ∧ ranking.*1 ≡ₚ seqZ 1 4
    ∧ Forall (λ p, 0 <= p.2) ranking
    ∧ ∀ d, (1 ≤ d ≤ 4)%Z →
        (∀ entry, entry ∈ termsets → d ∉ entry.2) →
        dict_get ranking d = Some 0.
Proof.
  intros inv_index termsets.
  assert (0 ≤ 4)%Z as HN by lia.
  assert (consistent termsets inv_index 4 = true) as Hok by (by vm_compute).
  assert (Forall (λ entry : termset * gset Z, entry.2 ≠ ∅) termsets) as Hne.
  { repeat constructor; simpl; by apply (bool_decide_unpack _). }
  exact (pipeline_ranks_all_documents termsets inv_index 4 HN Hok Hne).
Defined.
End pipeline_witnesses.

(** ** Further properties of the evaluator *)

Section evaluator_more.
Implicit Types (ranked l : list Z) (relevant : gset Z) (d : Z).

Lemma py_sum_snoc (l : list Q) (x : Q) : py_sum (l ++ [x]) = (py_sum l + x)%Q.
Proof. unfold py_sum. by rewrite fold_left_app. Qed.

Lemma py_sum_unit_bounds (l : list Q) :
  Forall (λ x, (0 <= x)%Q ∧ (x <= 1)%Q) l →
  (0 <= py_sum l)%Q ∧ (py_sum l <= inject_Z (len l))%Q.
Proof.
  induction l as [|x l IH] using rev_ind; intros Hl.
  - split; apply Qle_refl.
  - apply Forall_app in Hl as [Hl [[Hx0 Hx1] _]%Forall_cons].
    destruct (IH Hl) as [IH0 IH1]. rewrite py_sum_snoc.
    unfold len in *. rewrite length_app, Nat2Z.inj_add, inject_Z_plus. simpl.
    change (inject_Z (Z.of_nat 1)) with 1%Q.
    set (n := inject_Z (Z.of_nat (length l))) in *.
    set (t := py_sum l) in *. split; Lqa.lra.
Qed.

Lemma average_unit_bounds (l : list Q) :
  l ≠ [] →
  Forall (λ x, (0 <= x)%Q ∧ (x <= 1)%Q) l →
  (0 <= average l)%Q ∧ (average l <= 1)%Q.
Proof.
  intros Hne Hl. destruct (py_sum_unit_bounds l Hl) as [H0 H1].
  assert (0 < inject_Z (len l))%Q as Hlen.
  { change 0%Q with (inject_Z 0). rewrite <-Zlt_Qlt. unfold len.
    destruct l; [done|]. simpl. lia. }
  unfold average. split.
  - apply Qle_shift_div_l; [done|]. by rewrite Qmult_0_l.
  - apply Qle_shift_div_r; [done|]. by rewrite Qmult_1_l.
Qed.

(** Whenever [calc_precision_recall] returns on a ranking of distinct
    documents, both numbers it returns lie in [0, 1]. *)
Theorem calc_precision_recall_range ranked relevant (p r : Q) :
  NoDup ranked →
  calc_precision_recall ranked relevant = Ok (p, r) →
  ((0 <= p)%Q ∧ (p <= 1)%Q) ∧ ((0 <= r)%Q ∧ (r <= 1)%Q).
Proof.
  intros Hnd Hrun.
  destruct (decide (length (filter (λ d, d ∈ relevant) ranked) = 0)) as [Hz|Hnz].
  - rewrite calc_precision_recall_miss in Hrun; [done|].
    intros d Hd Hrel.
    assert (d ∈ filter (λ d, d ∈ relevant) ranked) as Hin
      by (by apply list_elem_of_filter).
    apply nil_length_inv in Hz. rewrite Hz in Hin. by apply elem_of_nil in Hin.
  - apply some_hit_filter in Hnz as Hhit.
    rewrite calc_precision_recall_hit in Hrun by done.
    injection Hrun as <- <-.
    destruct (recorded_length ranked relevant) as [Hp Hr].
    split; apply average_unit_bounds.
    + intros Hnil. rewrite Hnil in Hp. simpl in Hp. lia.
    + apply recorded_precisions_bounds.
    + intros Hnil. rewrite Hnil in Hr. simpl in Hr. lia.
    + by apply recorded_recalls_bounds.
Qed.

Lemma calc_precision_recall_range_witness :
  ((0 <= 8 # 16)%Q ∧ (8 # 16 <= 1)%Q) ∧ ((0 <= 9 # 18)%Q ∧ (9 # 18 <= 1)%Q).
Proof.
  apply (calc_precision_recall_range [3; 2; 1; 5]%Z {[2; 5; 7]}%Z).
  - by apply (bool_decide_unpack _).
  - by vm_compute.
Defined.

(** The recorded recalls are [1/|relevant|, 2/|relevant|, ...], one per
    relevant ranked document. *)
Lemma recorded_recalls_enum l relevant :
  recorded_recalls l relevant
  = (λ i, (inject_Z (Z.of_nat i) / inject_Z (set_len relevant))%Q)
      <$> seq 1 (length (filter (λ d, d ∈ relevant) l)).
Proof.
  induction l as [|d l IH] using rev_ind; [done|].
  rewrite recorded_recalls_snoc, IH, filter_app, length_app, filter_cons, filter_nil.
  unfold recall_at. rewrite hits_snoc_last, hits_all.
  destruct (decide (d ∈ relevant)); simpl.
  - by rewrite Nat.add_1_r, seq_S, fmap_app.
  - by rewrite Nat.add_0_r, app_nil_r.
Qed.

(** The recall that [calc_precision_recall] returns does not depend on
    the order of the ranking: it is the average of [1/|relevant|, ...,
    h/|relevant|], [h] being the number of relevant documents in the
    ranking, so two rankings with the same number of relevant documents
    get the same recall. *)
Theorem calc_precision_recall_recall_order ranked1 ranked2 relevant
    (p1 r1 p2 r2 : Q) :
  length (filter (λ d, d ∈ relevant) ranked1)
  = length (filter (λ d, d ∈ relevant) ranked2) →
  calc_precision_recall ranked1 relevant = Ok (p1, r1) →
  calc_precision_recall ranked2 relevant = Ok (p2, r2) →
  r1 = average ((λ i, (inject_Z (Z.of_nat i) / inject_Z (set_len relevant))%Q)
                  <$> seq 1 (length (filter (λ d, d ∈ relevant) ranked1)))
  ∧ r1 = r2.
Proof.
  assert (∀ ranked p r,
            calc_precision_recall ranked relevant = Ok (p, r) →
            r = average (recorded_recalls ranked relevant)) as Hrec.
  { intros ranked p r Hrun.
    destruct (decide (length (filter (λ d, d ∈ relevant) ranked) = 0)) as [Hz|Hnz].
    - rewrite calc_precision_recall_miss in Hrun; [done|].
      intros d Hd Hrel.
      assert (d ∈ filter (λ d, d ∈ relevant) ranked) as Hin
        by (by apply list_elem_of_filter).
      apply nil_length_inv in Hz. rewrite Hz in Hin. by apply elem_of_nil in Hin.
    - apply some_hit_filter in Hnz as Hhit.
      rewrite calc_precision_recall_hit in Hrun by done.
      by injection Hrun as _ <-. }
  intros Hh Hrun1 Hrun2.
  rewrite (Hrec _ _ _ Hrun1), (Hrec _ _ _ Hrun2), !recorded_recalls_enum.
  by rewrite Hh.
Qed.

Lemma calc_precision_recall_recall_order_witness :
  (9 # 18)%Q
  = average ((λ i, (inject_Z (Z.of_nat i)
                    / inject_Z (set_len ({[2; 5; 7]}%Z : gset Z)))%Q)
               <$> seq 1 (length (filter (λ d, d ∈ ({[2; 5; 7]}%Z : gset Z))
                                         [3; 2; 1; 5]%Z)))
  ∧ (9 # 18)%Q = (9 # 18)%Q.
Proof.
  apply (calc_precision_recall_recall_order [3; 2; 1; 5]%Z [5; 1; 3; 2]%Z
           {[2; 5; 7]}%Z (8 # 16) (9 # 18) (6 # 8) (9 # 18)).
  - by vm_compute.
  - by vm_compute.
  - by vm_compute.
Defined.
End evaluator_more.

(** ** The model object across [fit] and [evaluate] *)

Section model_fit.
Context {W : Type}.
Variable apriori : list term → inverted_index_t → Z → result occurrence_map.
Variable model_func : occurrence_map → result W.
Implicit Types (st : IRModel.state (W:=W)) (queries : list (list term)) (mf : Z).

Local Abbreviation fit := (IRModel.fit apriori model_func).
Local Abbreviation fit_step := (IRModel.fit_step apriori model_func).

(** What one successful iteration stores. *)
Lemma fit_step_success mf st st' query :
  fit_step mf st query = (st', None) →
  ∃ ts qv m w,
    apriori query
      (BaseIRModel.inverted_index (BaseIRModel.collection (IRModel.self st))) mf
    = Ok ts
    ∧ BaseIRModel.query2vec (IRModel.self st) ts = Ok qv
    ∧ BaseIRModel.termsets2vec (IRModel.self st) ts = Ok m
    ∧ model_func ts = Ok w
    ∧ st' = {| IRModel.self := IRModel.self st;
               IRModel._q2vec := IRModel._q2vec st ++ [qv];
               IRModel._docs2vec := IRModel._docs2vec st ++ [m];
               IRModel.precision := IRModel.precision st;
               IRModel.recall := IRModel.recall st;
               IRModel._m_weights := IRModel._m_weights st ++ [w] |}.
Proof.
  unfold IRModel.fit_step.
  destruct (apriori _ _ _) as [ts|] eqn:Hts; [|done].
  destruct (BaseIRModel.query2vec _ _) as [qv|] eqn:Hqv; [|done].
  destruct (BaseIRModel.termsets2vec _ _) as [m|] eqn:Hm; [|done].
  destruct (model_func ts) as [w|] eqn:Hw; [|done].
  intros [= <-]. exists ts, qv, m, w. by split_and!.
Qed.

(** A successful [fit] appends, per query and in query order, the query
    vector, the termset-frequency matrix and the model weights of the
    termsets mined for that query; it touches nothing else. *)
Theorem fit_success_appends mf st st' queries :
  fit mf st queries = (st', None) →
  let self := IRModel.self st in
  let inv_index := BaseIRModel.inverted_index (BaseIRModel.collection self) in
  ∃ tss qvs ms ws,
    mapM (λ query, apriori query inv_index mf) queries = Ok tss
    ∧ mapM (BaseIRModel.query2vec self) tss = Ok qvs
    ∧ mapM (BaseIRModel.termsets2vec self) tss = Ok ms
    ∧ mapM model_func tss = Ok ws
    ∧ IRModel.self st' = self
    ∧ IRModel._q2vec st' = IRModel._q2vec st ++ qvs
    ∧ IRModel._docs2vec st' = IRModel._docs2vec st ++ ms
    ∧ IRModel._m_weights st' = IRModel._m_weights st ++ ws
    ∧ IRModel.precision st' = IRModel.precision st
    ∧ IRModel.recall st' = IRModel.recall st.
Proof.
  revert st. induction queries as [|query rest IH]; intros st Hfit; simpl in *.
  - injection Hfit as <-. exists [], [], [], []. by rewrite !app_nil_r.
  - destruct (fit_step mf st query) as [st1 [e|]] eqn:Hstep; [done|].
    apply fit_step_success in Hstep as (ts & qv & m & w & Hts & Hqv & Hm & Hw & ->).
    destruct (IH _ Hfit) as
      (tss & qvs & ms & ws & Htss & Hqvs & Hms & Hws & H1 & H2 & H3 & H4 & H5 & H6).
    simpl in *. exists (ts :: tss), (qv :: qvs), (m :: ms), (w :: ws).
    rewrite !mapM_cons_result, Hts, Htss, Hqv, Hqvs, Hm, Hms, Hw, Hws. simpl.
    rewrite H2, H3, H4, <-!app_assoc. by split_and!.
Qed.

(** When [fit] ends with an exception, the query vectors and the matrices
    stay in step, and the weights are at most one entry behind: a failure
    of the model-weight function leaves the object with a query vector
    that has no weights. *)
Theorem fit_failure_lengths mf st st' queries e :
  fit mf st queries = (st', Some e) →
  length (IRModel._q2vec st) = length (IRModel._docs2vec st) →
  length (IRModel._m_weights st) = length (IRModel._q2vec st) →
  length (IRModel._q2vec st') = length (IRModel._docs2vec st')
  ∧ length (IRModel._m_weights st') ≤ length (IRModel._q2vec st')
  ∧ length (IRModel._q2vec st') ≤ S (length (IRModel._m_weights st'))
  ∧ length (IRModel._q2vec st) ≤ length (IRModel._q2vec st').
Proof.
  revert st. induction queries as [|query rest IH]; intros st Hfit Hqd Hmw;
    simpl in *; [done|].
  destruct (fit_step mf st query) as [st1 [e1|]] eqn:Hstep.
  - injection Hfit as <- <-. unfold IRModel.fit_step in Hstep.
    destruct (apriori _ _ _) as [ts|]; [|injection Hstep as <- _; lia].
    destruct (BaseIRModel.query2vec _ _) as [qv|]; [|injection Hstep as <- _; lia].
    destruct (BaseIRModel.termsets2vec _ _) as [m|]; [|injection Hstep as <- _; lia].
    destruct (model_func ts) as [w|]; [done|].
    injection Hstep as <- _. simpl. rewrite !length_app. simpl. lia.
  - apply fit_step_success in Hstep as (ts & qv & m & w & _ & _ & _ & _ & ->).
    destruct (IH _ Hfit) as (H1 & H2 & H3 & H4);
      simpl in *; rewrite ?length_app in *; simpl in *; lia.
Qed.
End model_fit.

Section model_evaluate.
Context {W : Type}.
Variable vectorizer : matrix → list R → W → result matrix.
Variable cosine : list R → list R → result R.
Variable precision_recall
  : list Z → gset Z → result (PrimFloat.float * PrimFloat.float).
Implicit Types (st : IRModel.state (W:=W)) (relevant : list (gset Z)).

Local Abbreviation evaluate := (IRModel.evaluate vectorizer cosine precision_recall).
Local Abbreviation evaluate_loop :=
  (IRModel.evaluate_loop vectorizer cosine precision_recall).
Local Abbreviation evaluate_step :=
  (IRModel.evaluate_step vectorizer cosine precision_recall).
Local Abbreviation query_scores :=
  (IRModel.query_scores vectorizer cosine precision_recall).

Lemma length_zip3 {A B C} (a : list A) (b : list B) (c : list C) :
  length (IRModel.zip3 a b c)
  = Nat.min (Nat.min (length a) (length b)) (length c).
Proof.
  revert b c. induction a as [|x a IH]; intros [|y b] [|z c]; simpl;
    rewrite ?IH; lia.
Qed.

Lemma evaluate_step_success st st' i item :
  evaluate_step st i item = (st', None) →
  (i < length (IRModel._m_weights st))%nat
  ∧ ∃ p r,
      query_scores (IRModel._m_weights st) i item = Ok (p, r)
      ∧ st' = {| IRModel.self := IRModel.self st;
                 IRModel._q2vec := IRModel._q2vec st;
                 IRModel._docs2vec := IRModel._docs2vec st;
                 IRModel.precision :=
                   IRModel.precision st ++ [Double.builtin_round3 p];
                 IRModel.recall :=
                   IRModel.recall st ++ [Double.builtin_round3 r];
                 IRModel._m_weights := IRModel._m_weights st |}.
Proof.
  destruct item as [[qv dv] rel]. unfold IRModel.evaluate_step, IRModel.query_scores.
  destruct (IRModel._m_weights st !! i) as [w|] eqn:Hw; [|done]. simpl.
  destruct (vectorizer dv qv w) as [dtsm|]; [|done]. simpl.
  destruct (BaseIRModel.qd_similarities cosine qv dtsm) as [qd_sims|]; [|done].
  simpl.
  destruct (precision_recall _ rel) as [[pre rec]|]; [|done].
  intros [= <-]. split; [by eapply lookup_lt_Some|]. by eexists _, _.
Qed.

Lemma evaluate_loop_success st st' i items :
  evaluate_loop st i items = (st', None) →
  IRModel.self st' = IRModel.self st
  ∧ IRModel._q2vec st' = IRModel._q2vec st
  ∧ IRModel._docs2vec st' = IRModel._docs2vec st
  ∧ IRModel._m_weights st' = IRModel._m_weights st
  ∧ (i + length items ≤ i `max` length (IRModel._m_weights st))%nat
  ∧ ∃ scores,
      mapM (λ p, query_scores (IRModel._m_weights st) p.1 p.2)
           (zip (seq i (length items)) items) = Ok scores
      ∧ length scores = length items
      ∧ IRModel.precision st'
        = IRModel.precision st ++ (Double.builtin_round3 <$> scores.*1)
      ∧ IRModel.recall st'
        = IRModel.recall st ++ (Double.builtin_round3 <$> scores.*2).
Proof.
  revert st i. induction items as [|item rest IH]; intros st i Hrun; simpl in *.
  - injection Hrun as <-. split_and!; [done..|lia|].
    exists []. by rewrite !app_nil_r.
  - destruct (evaluate_step st i item) as [st1 [e|]] eqn:Hstep; [done|].
    apply evaluate_step_success in Hstep as (Hi & p & r & Hq & ->).
    destruct (IH _ _ Hrun)
      as (H1 & H2 & H3 & H4 & H5 & scores & Hs & Hlen & Hp & Hr).
    simpl in *. split_and!; [done..|lia|].
    exists ((p, r) :: scores). rewrite Hq, Hs, Hp, Hr, <-!app_assoc. simpl.
    by rewrite Hlen.
Qed.

(** A successful [evaluate] computes, for each query [i] in turn (as many
    as the shortest of the query vectors, the matrices and the relevance
    sets, which is at most the number of stored weights), the precision
    and the recall of the ranking of the documents by their similarity to
    the query under the weights [i], and appends each of the two, rounded
    to three decimals, to the values stored by earlier calls; it returns
    all the values accumulated so far and leaves the vectors and the
    weights untouched. *)
Theorem evaluate_appends_scores st st' relevant
    (pre rec : list PrimFloat.float) :
  evaluate st relevant = (st', Ok (pre, rec)) →
  let items := IRModel.zip3 (IRModel._q2vec st) (IRModel._docs2vec st) relevant in
  let n := Nat.min (Nat.min (length (IRModel._q2vec st))
                            (length (IRModel._docs2vec st)))
                   (length relevant) in
  ∃ scores,
    mapM (λ p, query_scores (IRModel._m_weights st) p.1 p.2)
         (zip (seq 0 n) items) = Ok scores
    ∧ length scores = n
    ∧ (n ≤ length (IRModel._m_weights st))%nat
    ∧ IRModel.precision st'
      = IRModel.precision st ++ (Double.builtin_round3 <$> scores.*1)
    ∧ IRModel.recall st'
      = IRModel.recall st ++ (Double.builtin_round3 <$> scores.*2)
    ∧ pre = IRModel.precision st'
    ∧ rec = IRModel.recall st'
    ∧ IRModel._q2vec st' = IRModel._q2vec st
    ∧ IRModel._docs2vec st' = IRModel._docs2vec st
    ∧ IRModel._m_weights st' = IRModel._m_weights st.
Proof.
  unfold IRModel.evaluate.
  destruct (evaluate_loop st 0 _) as [st1 [e|]] eqn:Hloop; [done|].
  intros [= <- <- <-]. simpl.
  apply evaluate_loop_success in Hloop
    as (H1 & H2 & H3 & H4 & H5 & scores & Hs & Hlen & Hp & Hr).
  rewrite length_zip3 in *. exists scores. split_and!; [done|done|lia|done..].
Qed.
End model_evaluate.

Section model_witnesses.
Import Stdlib.Floats.PrimFloat.

(** A model over a collection of three documents in which no query has a
    frequent termset. *)
Local Abbreviation mine_nothing :=
  (λ (_ : list term) (_ : inverted_index_t) (_ : Z), Ok ([] : occurrence_map)).
Local Abbreviation unit_weights := (λ _ : occurrence_map, Ok tt).
Local Abbreviation no_weights := (λ _ : occurrence_map, @Raise unit ValueError).
Local Abbreviation coll3 := (BaseIRModel.Collection 3 ∅).
Local Abbreviation empty3 := {| ncols := 3; mrows := [] |}.
Local Abbreviation fitted qs ms ws :=
  {| IRModel.self := BaseIRModel.Model coll3;
     IRModel._q2vec := qs; IRModel._docs2vec := ms;
     IRModel.precision := []; IRModel.recall := [];
     IRModel._m_weights := (ws : list unit) |}.

Lemma fit_success_appends_witness :
  let st := IRModel.init (W:=unit) coll3 in
  let st' := fitted [[]; []] [empty3; empty3] [tt; tt] in
  let self := IRModel.self st in
  let inv_index := BaseIRModel.inverted_index (BaseIRModel.collection self) in
  ∃ tss qvs ms ws,
    mapM (λ query, mine_nothing query inv_index 10%Z) [["a"]; ["b"]] = Ok tss
    ∧ mapM (BaseIRModel.query2vec self) tss = Ok qvs
    ∧ mapM (BaseIRModel.termsets2vec self) tss = Ok ms
    ∧ mapM unit_weights tss = Ok ws
    ∧ IRModel.self st' = self
    ∧ IRModel._q2vec st' = IRModel._q2vec st ++ qvs
    ∧ IRModel._docs2vec st' = IRModel._docs2vec st ++ ms
    ∧ IRModel._m_weights st' = IRModel._m_weights st ++ ws
    ∧ IRModel.precision st' = IRModel.precision st
    ∧ IRModel.recall st' = IRModel.recall st.
Proof.
  intros st st'.
  assert (IRModel.fit mine_nothing unit_weights 10 st [["a"]; ["b"]] = (st', None))
    as Hfit by reflexivity.
  exact (fit_success_appends mine_nothing unit_weights 10 st st' _ Hfit).
Defined.

Lemma fit_failure_lengths_witness :
  let st' := fitted [[]] [empty3] [] in
  length (IRModel._q2vec st') = length (IRModel._docs2vec st')
  ∧ length (IRModel._m_weights st') ≤ length (IRModel._q2vec st')
  ∧ length (IRModel._q2vec st') ≤ S (length (IRModel._m_weights st'))
  ∧ length (IRModel._q2vec (IRModel.init (W:=unit) coll3))
    ≤ length (IRModel._q2vec st').
Proof.
  intros st'.
  apply (fit_failure_lengths mine_nothing no_weights 10 (IRModel.init coll3) st'
           [["a"]; ["b"]] ValueError); reflexivity.
Defined.

Lemma evaluate_appends_scores_witness :
  let scores_of := (λ (_ : list Z) (_ : gset Z),
                      Ok (0x1.4cccccccccccdp-3%float, 0x1p-1%float)) in
  let st :=
    {| IRModel.self := BaseIRModel.Model coll3;
       IRModel._q2vec := [[1%R]]; IRModel._docs2vec := [Matrix 1 [[1%R]]];
       IRModel.precision := [0x1p-1%float];
       IRModel.recall := [0x1p-2%float];
       IRModel._m_weights := [tt] |} in
  let st' :=
    {| IRModel.self := BaseIRModel.Model coll3;
       IRModel._q2vec := [[1%R]]; IRModel._docs2vec := [Matrix 1 [[1%R]]];
       IRModel.precision := [0x1p-1%float; 0x1.4dd2f1a9fbe77p-3%float];
       IRModel.recall := [0x1p-2%float; 0x1p-1%float];
       IRModel._m_weights := [tt] |} in
  let items := IRModel.zip3 (IRModel._q2vec st) (IRModel._docs2vec st)
                 [({[1%Z]} : gset Z); {[2%Z]}] in
  let n := Nat.min (Nat.min (length (IRModel._q2vec st))
                            (length (IRModel._docs2vec st)))
                   (length [({[1%Z]} : gset Z); {[2%Z]}]) in
  ∃ scores,
    mapM (λ p, IRModel.query_scores (λ dv _ _, Ok dv) (λ _ _, Ok 0%R) scores_of
                 (IRModel._m_weights st) p.1 p.2)
         (zip (seq 0 n) items) = Ok scores
    ∧ length scores = n
    ∧ n ≤ length (IRModel._m_weights st)
    ∧ IRModel.precision st'
      = IRModel.precision st ++ (Double.builtin_round3 <$> scores.*1)
    ∧ IRModel.recall st'
      = IRModel.recall st ++ (Double.builtin_round3 <$> scores.*2)
    ∧ IRModel.precision st' = IRModel.precision st'
    ∧ IRModel.recall st' = IRModel.recall st'
    ∧ IRModel._q2vec st' = IRModel._q2vec st
    ∧ IRModel._docs2vec st' = IRModel._docs2vec st
    ∧ IRModel._m_weights st' = IRModel._m_weights st.
Proof.
  intros scores_of st st'.
  apply (evaluate_appends_scores (λ dv _ _, Ok dv) (λ _ _, Ok 0%R) scores_of
           st st' [{[1%Z]}; {[2%Z]}]).
  reflexivity.
Defined.
End model_witnesses.

(** ** Document ids and frequencies outside the data model *)

Section out_of_model.
Local Open Scope Z_scope.

Lemma tsf_row_single (t : term) (id tf : Z) (N : nat) :
  tsf_row {[ t := IndexEntry [(id, tf)] ]} N ([t], {[id]})
  = assign_row [(id, [tf])] (replicate N 0%R).
Proof.
  unfold tsf_row. simpl. rewrite lookup_singleton_eq. simpl.
  unfold scan_postings. simpl. rewrite decide_True by set_solver. done.
Qed.

(** One termset with one posting [(id, tf)]: a frequency below 1 raises
    [ValueError]; a document id outside [1-N .. N] raises [IndexError]; and
    a document id in [1-N .. 0] is accepted and written, counting from the
    end, into the column of document [N + id]. *)
Theorem calculate_tsf_single_posting (t : term) (id tf N : Z) :
  0 ≤ N →
  let r := calculate_tsf [([t], {[id]})] {[ t := IndexEntry [(id, tf)] ]} N in
  (tf ≤ 0 → r = Raise ValueError)
  ∧ (1 ≤ tf → id < 1 - N ∨ N < id → r = Raise IndexError)
  ∧ (1 ≤ tf → 1 - N ≤ id ≤ 0 →
     r = Ok {| ncols := Z.to_nat N;
               mrows := [<[Z.to_nat (N + id - 1) := tsf_weight tf]>
                           (replicate (Z.to_nat N) 0%R)] |}).
Proof.
  intros HN r. unfold r, calculate_tsf. rewrite decide_False by lia.
  rewrite mapM_cons_result, tsf_row_single. simpl.
  assert (len (replicate (Z.to_nat N) 0%R) = N) as Hlen.
  { unfold len. rewrite length_replicate. lia. }
  split_and!.
  - intros Htf. unfold py_log2. apply IZR_le in Htf.
    by destruct (Rle_dec (IZR tf) 0).
  - intros Htf Hid. rewrite py_log2_pos by (apply IZR_lt; lia). simpl.
    unfold np_setitem. rewrite Hlen.
    rewrite decide_False by lia. rewrite decide_False by lia. done.
  - intros Htf Hid. rewrite py_log2_pos by (apply IZR_lt; lia). simpl.
    unfold np_setitem. rewrite Hlen.
    rewrite decide_False by lia. rewrite decide_True by lia. simpl.
    by replace (N + (id - 1)) with (N + id - 1) by lia.
Qed.

Lemma calculate_tsf_single_posting_witness :
  let r := λ id tf, calculate_tsf [(["a"], {[id]})]
                                  {[ "a" := IndexEntry [(id, tf)] ]} 3 in
  r 1 0 = Raise ValueError
  ∧ r 4 2 = Raise IndexError
  ∧ r 0 2 = Ok {| ncols := 3; mrows := [[0%R; 0%R; tsf_weight 2]] |}.
Proof.
  intros r. split_and!.
  - apply (calculate_tsf_single_posting "a" 1 0 3); lia.
  - apply (calculate_tsf_single_posting "a" 4 2 3); lia.
  - apply (calculate_tsf_single_posting "a" 0 2 3); lia.
Defined.
End out_of_model.
